(** * A shallow embedding of [server.js]: upload validation, naming and
      retention sweep of the local upload server.

    The embedding follows the source top to bottom:
    - [Js]: the few JavaScript string primitives the source calls
      ([Array.prototype.includes], [String.prototype.split] followed by
      [[0]], number-to-string conversion inside template literals);
    - [Path]: Node's [path.extname] (the loop of the POSIX implementation)
      and the segment view of [path.join];
    - [Server]: the constants, [fileFilter], [storage.filename], the
      [/upload] route with its error middleware, and the periodic cleanup,
      run over an explicit model of the uploads directory.

    Modelling choices:
    - strings are [string]; [path.extname] and [split] only look for the
      characters [/] and [.], so the width of a character plays no role;
    - the uploads directory is a finite map from file names to file
      records, absent until [fs.mkdirSync] creates it;
    - [Date.now()], [Math.round(Math.random() * 1E9)] and the creation
      times of files are inputs, in whole milliseconds since the epoch;
    - callbacks are run to completion in the order the source registers
      them: one request, or one firing of the timer, is one step;
    - multer and Express are represented by what they do with the
      callbacks of the source: multer calls [fileFilter] before the storage
      callbacks and forwards an error with [next(err)], and Express then
      skips the route handler and runs the error-handling middleware;
    - [console] keeps the lines of the cleanup; the request log and the
      stack trace printed by the error middleware are left out. *)

From Stdlib Require Import ZArith NArith Ascii String DecimalString DecimalN DecimalPos.
From stdpp Require Import base list gmap strings.

Local Open Scope Z_scope.

(** ** JavaScript string primitives *)

Module Js.

Abbreviation chars := String.list_ascii_of_string.
Abbreviation str := String.string_of_list_ascii.

(** [arr.includes(x)] on an array of strings: a left-to-right scan with
    string equality. *)
Fixpoint includes (arr : list string) (x : string) : bool :=
  match arr with
  | [] => false
  | y :: arr' => if String.eqb y x then true else includes arr' x
  end.

(** [s.split(sep)[0]] for a one-character separator: the characters before
    the first occurrence of [sep], the whole string when there is none. *)
Fixpoint split_head (sep : ascii) (s : string) : string :=
  match s with
  | EmptyString => EmptyString
  | String c s' => if Ascii.eqb c sep then EmptyString else String c (split_head sep s')
  end.

(** [`${n}`] for a non-negative integer number [n] (below 1e21, where
    JavaScript prints every digit): its decimal digits. *)
Definition Number_toString (n : N) : string :=
  NilZero.string_of_uint (N.to_uint n).

Definition is_digit (c : ascii) : bool :=
  match Ascii.is_nat c with Some _ => true | None => false end.

(** [s.slice(from, to)] with JavaScript's treatment of negative and
    out-of-range indices. *)
Definition slice {A} (l : list A) (from to : Z) : list A :=
  let len := Z.of_nat (length l) in
  let a := if from <? 0 then Z.max (len + from) 0 else Z.min from len in
  let b := if to <? 0 then Z.max (len + to) 0 else Z.min to len in
  take (Z.to_nat (b - a)) (drop (Z.to_nat a) l).

(** [x] is empty or starts with a character that is not a digit: a run of
    digits written before [x] ends where [x] starts. *)
Definition ends_digits (x : list ascii) : Prop :=
  match x with
  | [] => True
  | c :: _ => is_digit c = false
  end.

End Js.

(** ** Node's [path] module (POSIX flavour) *)

Module Path.
Import Js.

Definition CHAR_FORWARD_SLASH : ascii := "/"%char.
Definition CHAR_DOT : ascii := "."%char.

Definition isPathSeparator (c : ascii) : bool := Ascii.eqb c CHAR_FORWARD_SLASH.

(** The local variables of [extname]. *)
Record ext_state := ExtState {
  startDot : Z;
  startPart : Z;
  end_ : Z;
  matchedSlash : bool;
  preDotState : Z
}.

Definition ext_init : ext_state :=
  {| startDot := -1; startPart := 0; end_ := -1; matchedSlash := true; preDotState := 0 |}.

Definition set_startPart (v : Z) (st : ext_state) : ext_state :=
  {| startDot := startDot st; startPart := v; end_ := end_ st;
     matchedSlash := matchedSlash st; preDotState := preDotState st |}.
Definition set_startDot (v : Z) (st : ext_state) : ext_state :=
  {| startDot := v; startPart := startPart st; end_ := end_ st;
     matchedSlash := matchedSlash st; preDotState := preDotState st |}.
Definition set_preDotState (v : Z) (st : ext_state) : ext_state :=
  {| startDot := startDot st; startPart := startPart st; end_ := end_ st;
     matchedSlash := matchedSlash st; preDotState := v |}.
Definition mark_end (v : Z) (st : ext_state) : ext_state :=
  {| startDot := startDot st; startPart := startPart st; end_ := v;
     matchedSlash := false; preDotState := preDotState st |}.

(** The part of the loop body that runs for a character that is not a path
    separator, at index [i]. *)
Definition ext_char (code : ascii) (i : Z) (st : ext_state) : ext_state :=
  let st1 := if end_ st =? -1 then mark_end (i + 1) st else st in
  if Ascii.eqb code CHAR_DOT then
    if startDot st1 =? -1 then set_startDot i st1
    else if negb (preDotState st1 =? 1) then set_preDotState 1 st1
    else st1
  else if negb (startDot st1 =? -1) then set_preDotState (-1) st1
  else st1.

(** [for (let i = path.length - 1; i >= 0; --i) { ... }], with [k = i + 1]
    the number of characters still to visit.  A separator seen after the
    last component has started ends the loop ([break]); a trailing one is
    skipped ([continue]). *)
Fixpoint ext_loop (path : list ascii) (k : nat) (st : ext_state) : ext_state :=
  match k with
  | O => st
  | S i =>
    match path !! i with
    | None => st
    | Some code =>
      if isPathSeparator code then
        if negb (matchedSlash st) then set_startPart (Z.of_nat i + 1) st
        else ext_loop path i st
      else ext_loop path i (ext_char code (Z.of_nat i) st)
    end
  end.

Definition extname_chars (path : list ascii) : list ascii :=
  let st := ext_loop path (length path) ext_init in
  if (startDot st =? -1) || (end_ st =? -1) || (preDotState st =? 0) ||
     ((preDotState st =? 1) && (startDot st =? end_ st - 1)
        && (startDot st =? startPart st + 1))
  then []
  else slice path (startDot st) (end_ st).

(** [path.extname(p)] *)
Definition extname (p : string) : string := str (extname_chars (chars p)).

(** *** What [extname] computes

    The extension is taken from the last component of the path (trailing
    separators ignored), split at its last dot. *)

Fixpoint take_while {A} (f : A → bool) (l : list A) : list A :=
  match l with
  | [] => []
  | x :: l' => if f x then x :: take_while f l' else []
  end.

Fixpoint drop_while {A} (f : A → bool) (l : list A) : list A :=
  match l with
  | [] => []
  | x :: l' => if f x then drop_while f l' else l
  end.

Definition not_sep (c : ascii) : bool := negb (isPathSeparator c).
Definition not_dot (c : ascii) : bool := negb (Ascii.eqb c CHAR_DOT).

Definition last_component (p : list ascii) : list ascii :=
  rev (take_while not_sep (drop_while isPathSeparator (rev p))).

(** [split_last_dot c = Some (pre, suf)] when [c = pre ++ "." ++ suf] and
    [suf] has no dot. *)
Definition split_last_dot (c : list ascii) : option (list ascii * list ascii) :=
  match drop_while not_dot (rev c) with
  | [] => None
  | _ :: pre_r => Some (rev pre_r, rev (take_while not_dot (rev c)))
  end.

Definition ext_of_component (c : list ascii) : list ascii :=
  match split_last_dot c with
  | None => []
  | Some (pre, suf) =>
    if bool_decide (pre = []) || bool_decide (c = [CHAR_DOT; CHAR_DOT]) then []
    else CHAR_DOT :: suf
  end.


(** The extension of a path: that of its last component. *)
Definition component_extension (p : string) : string :=
  str (ext_of_component (last_component (chars p))).

(** The extension in the words of the naming rule: the suffix of the name
    from its last dot on, dot included; empty when the name has no dot. *)
Definition suffix_from_last_dot (name : string) : string :=
  match split_last_dot (chars name) with
  | None => ""
  | Some (_, suf) => str (CHAR_DOT :: suf)
  end.

(** *** [path.join(dir, name)], seen through the components of the
    normalized result.  [dir] is absolute ([__dirname] is), so [..] at the
    root stays at the root. *)

Fixpoint split_sep (p : list ascii) : list (list ascii) :=
  match p with
  | [] => [[]]
  | c :: p' =>
    if isPathSeparator c then [] :: split_sep p'
    else match split_sep p' with
         | seg :: segs => (c :: seg) :: segs
         | [] => [[c]]
         end
  end.

Definition push_segment (stack : list (list ascii)) (seg : list ascii) : list (list ascii) :=
  if bool_decide (seg = []) || bool_decide (seg = [CHAR_DOT]) then stack
  else if bool_decide (seg = [CHAR_DOT; CHAR_DOT]) then removelast stack
  else stack ++ [seg].

Definition components (p : list ascii) : list (list ascii) :=
  foldl push_segment [] (split_sep p).

Definition join (dir name : string) : string :=
  dir +:+ "/" +:+ name.

End Path.

(** ** [server.js] *)

Module Server.
Import Js.

(** *** Configuration constants *)

Definition FILE_SIZE_LIMIT : N := (10 * 1024 * 1024)%N.

Definition ALLOWED_FILE_TYPES : list string :=
  [ "image/jpeg"; "image/png"; "image/gif"; "image/webp";
    "video/mp4"; "video/mpeg"; "video/quicktime" ].

Definition UPLOAD_CLEANUP_INTERVAL : Z := 24 * 60 * 60 * 1000.

(** *** Values passed around *)

(** The file part of a multipart request as multer hands it to
    [fileFilter] and to the storage callbacks, with the number of bytes its
    stream carries. *)
Record FilePart := {
  originalname : string;
  mimetype : string;
  stream_bytes : N
}.

Inductive JsError :=
  | Error (message : string)
  | MulterError (code : string) (message : string).

Definition error_message (e : JsError) : string :=
  match e with
  | Error m => m
  | MulterError _ m => m
  end.

(** A failed [fs] call: the errno code and the path it was made on. *)
Record FsError := { errno : string; epath : string }.

(** One entry of the uploads directory.  [stat_error] and [unlink_error]
    say whether [fs.stat] and [fs.unlink] fail on it (lack of permission, an
    entry that is a directory, ...), and with which code. *)
Record Inode := {
  birthtimeMs : N;
  ino_size : N;
  stat_error : option string;
  unlink_error : option string
}.

Record Dir := {
  readdir_error : option string;
  entries : gmap string Inode
}.

(** The uploads directory; [None] until something creates it. *)
Definition Fs : Type := option Dir.

(** *** File system calls *)

Definition empty_dir : Dir := {| readdir_error := None; entries := ∅ |}.

Definition with_entries (d : Dir) (es : gmap string Inode) : Dir :=
  {| readdir_error := readdir_error d; entries := es |}.

(** [fs.mkdirSync(uploadDir, { recursive: true })] *)
Definition mkdirSync (fs : Fs) : Dir :=
  match fs with
  | None => empty_dir
  | Some d => d
  end.

Definition regular_file (now bytes : N) : Inode :=
  {| birthtimeMs := now; ino_size := bytes; stat_error := None; unlink_error := None |}.

(** Writing [bytes] bytes to [name] at clock reading [now]: the file is
    created, or replaced when the name is taken. *)
Definition write_file (name : string) (now bytes : N) (d : Dir) : Dir :=
  with_entries d (<[name := regular_file now bytes]> (entries d)).

(** [fs.readdir(uploadsDir, cb)] *)
Definition readdir (fs : Fs) : FsError + list string :=
  match fs with
  | None => inl {| errno := "ENOENT"; epath := "uploads" |}
  | Some d =>
    match readdir_error d with
    | Some code => inl {| errno := code; epath := "uploads" |}
    | None => inr (map_to_list (entries d)).*1
    end
  end.

(** [fs.stat(filePath, cb)] *)
Definition stat (es : gmap string Inode) (file : string) : FsError + Inode :=
  match es !! file with
  | None => inl {| errno := "ENOENT"; epath := file |}
  | Some ino =>
    match stat_error ino with
    | Some code => inl {| errno := code; epath := file |}
    | None => inr ino
    end
  end.

(** [fs.unlink(filePath, cb)] *)
Definition unlink (es : gmap string Inode) (file : string) : FsError + gmap string Inode :=
  match es !! file with
  | None => inl {| errno := "ENOENT"; epath := file |}
  | Some ino =>
    match unlink_error ino with
    | Some code => inl {| errno := code; epath := file |}
    | None => inr (delete file es)
    end
  end.

(** *** Upload: [fileFilter], [storage], [upload.single('file')] *)

(** [storage.destination]: the directory is created if need be and handed
    to the callback. *)
Definition destination (uploadDir : string) (fs : Fs) : Dir * string :=
  (mkdirSync fs, uploadDir).

(** [fileFilter]: the pair is what the callback [cb] receives. *)
Definition fileFilter (file : FilePart) : option JsError * bool :=
  if includes ALLOWED_FILE_TYPES (mimetype file) then (None, true)
  else (Some (Error "Invalid file type"), false).

(** [storage.filename]: [Date_now] is the value of [Date.now()] and
    [random] that of [Math.round(Math.random() * 1E9)]. *)
Definition filename (file : FilePart) (Date_now random : N) : string :=
  let fileType := split_head "/" (mimetype file) in
  let fileExtension := Path.extname (originalname file) in
  let uniqueSuffix :=
    fileType +:+ "_" +:+ Number_toString Date_now +:+ "_" +:+ Number_toString random in
  uniqueSuffix +:+ fileExtension.

(** [req.file] *)
Record ReqFile := {
  rf_filename : string;
  rf_originalname : string;
  rf_mimetype : string;
  rf_size : N;
  rf_path : string
}.

(** How the multer middleware hands over: [next()] with [req.file] set or
    left undefined, or [next(err)]. *)
Inductive Next :=
  | NextOk (req_file : option ReqFile)
  | NextErr (err : JsError).

(** Modelled from the spec: the enforcement of [limits.fileSize] happens
    inside multer's multipart parser, which is not part of [server.js]; the
    source only passes [FILE_SIZE_LIMIT] to it.  Following the spec, a
    stream is cut off once it carries more bytes than the limit. *)
Definition limit_exceeded (limit bytes : N) : bool := (limit <? bytes)%N.

(** [upload.single('file')] with the configuration of the source: the
    filter runs first; an accepted part is written under the name
    [storage.filename] gives, inside the directory [storage.destination]
    creates; a part cut off at the size limit is removed again and the
    request fails with multer's [LIMIT_FILE_SIZE] error. *)
Definition upload_single (uploadDir : string) (part : option FilePart)
    (Date_now random : N) (fs : Fs) : Fs * Next :=
  match part with
  | None => (fs, NextOk None)
  | Some file =>
    match fileFilter file with
    | (Some err, _) => (fs, NextErr err)
    | (None, false) => (fs, NextOk None)
    | (None, true) =>
      let '(d, dir) := destination uploadDir fs in
      let name := filename file Date_now random in
      if limit_exceeded FILE_SIZE_LIMIT (stream_bytes file) then
        let d1 := write_file name Date_now FILE_SIZE_LIMIT d in
        let d2 := match unlink (entries d1) name with
                  | inr es => with_entries d1 es
                  | inl _ => d1
                  end in
        (Some d2, NextErr (MulterError "LIMIT_FILE_SIZE" "File too large"))
      else
        (Some (write_file name Date_now (stream_bytes file) d),
         NextOk (Some {| rf_filename := name;
                         rf_originalname := originalname file;
                         rf_mimetype := mimetype file;
                         rf_size := stream_bytes file;
                         rf_path := Path.join dir name |}))
    end
  end.

(** The name an accepted upload was stored under. *)
Definition stored_name (n : Next) : option string :=
  match n with
  | NextOk (Some f) => Some (rf_filename f)
  | _ => None
  end.

(** *** The [/upload] route and the error-handling middleware *)

Record FileInfo := {
  fi_filename : string;
  fi_originalname : string;
  fi_mimetype : string;
  fi_size : N;
  fi_path : string;
  fi_url : string;
  fi_type : string
}.

(** The three JSON bodies the source sends. *)
Inductive Body :=
  | BodySuccess (message : string) (file : FileInfo)
  | BodyFailure (message : string)
  | BodyFailureWithError (message error : string).

Record Response := { status : N; body : Body }.

(** The route handler.  Nothing inside its [try] block throws on a
    [req.file] built by multer, so the [catch] branch is not reached. *)
Definition upload_handler (port : string) (req_file : option ReqFile) : Response :=
  match req_file with
  | None =>
    {| status := 400;
       body := BodyFailure "No file was uploaded or file type is not allowed" |}
  | Some f =>
    {| status := 200;
       body := BodySuccess "File uploaded successfully"
         {| fi_filename := rf_filename f;
            fi_originalname := rf_originalname f;
            fi_mimetype := rf_mimetype f;
            fi_size := rf_size f;
            fi_path := rf_path f;
            fi_url := "http://localhost:" +:+ port +:+ "/uploads/" +:+ rf_filename f;
            fi_type := split_head "/" (rf_mimetype f) |} |}
  end.

(** [app.use((err, req, res, next) => ...)] *)
Definition error_middleware (err : JsError) : Response :=
  {| status := 500;
     body := BodyFailureWithError "An unexpected error occurred" (error_message err) |}.

(** [app.post('/upload', upload.single('file'), handler)] followed by the
    error middleware: [next(err)] skips the handler. *)
Definition post_upload (uploadDir port : string) (part : option FilePart)
    (Date_now random : N) (fs : Fs) : Fs * Response :=
  match upload_single uploadDir part Date_now random fs with
  | (fs', NextOk req_file) => (fs', upload_handler port req_file)
  | (fs', NextErr err) => (fs', error_middleware err)
  end.

(** *** Periodic cleanup *)

Inductive LogLine :=
  | LogReaddirError (err : FsError)
  | LogStatError (err : FsError)
  | LogUnlinkError (err : FsError)
  | LogDeleted (file : string).

(** The body of [files.forEach]: [fs.stat], the age test, [fs.unlink]; every
    branch returns to the iteration. *)
Definition sweep_file (now : N) (acc : gmap string Inode * list LogLine)
    (file : string) : gmap string Inode * list LogLine :=
  let '(es, log) := acc in
  match stat es file with
  | inl err => (es, log ++ [LogStatError err])
  | inr stats =>
    if Z.of_N now - Z.of_N (birthtimeMs stats) >? UPLOAD_CLEANUP_INTERVAL then
      match unlink es file with
      | inl err => (es, log ++ [LogUnlinkError err])
      | inr es' => (es', log ++ [LogDeleted file])
      end
    else (es, log)
  end.

Definition sweep_files (now : N) (files : list string) (es : gmap string Inode)
  : gmap string Inode * list LogLine :=
  foldl (sweep_file now) (es, []) files.

(** One firing of the [setInterval] callback, [now] being [Date.now()]. *)
Definition sweep (now : N) (fs : Fs) : Fs * list LogLine :=
  match readdir fs with
  | inl err => (fs, [LogReaddirError err])
  | inr files =>
    match fs with
    | None => (fs, [])
    | Some d =>
      let '(es, log) := sweep_files now files (entries d) in
      (Some (with_entries d es), log)
    end
  end.

(** The files under the storage root. *)
Definition disk_entries (fs : Fs) : gmap string Inode :=
  match fs with
  | None => ∅
  | Some d => entries d
  end.

(** The age test of the cleanup. *)
Definition too_old (now : N) (ino : Inode) : bool :=
  Z.of_N now - Z.of_N (birthtimeMs ino) >? UPLOAD_CLEANUP_INTERVAL.

(** Visiting [file] removes it: it can be examined, it is too old and it
    can be deleted. *)
Definition removable (now : N) (es : gmap string Inode) (file : string) : bool :=
  match es !! file with
  | None => false
  | Some ino =>
    bool_decide (stat_error ino = None) && too_old now ino
      && bool_decide (unlink_error ino = None)
  end.

(** What visiting [file] writes to the console. *)
Definition verdict (now : N) (es : gmap string Inode) (file : string) : list LogLine :=
  match stat es file with
  | inl err => [LogStatError err]
  | inr stats =>
    if too_old now stats then
      match unlink es file with
      | inl err => [LogUnlinkError err]
      | inr _ => [LogDeleted file]
      end
    else []
  end.

Definition is_error_line (l : LogLine) : Prop :=
  match l with
  | LogDeleted _ => False
  | _ => True
  end.

(** *** The process: requests, timer firings and the shutdown signal *)

Record Proc := {
  disk : Fs;
  console : list LogLine;
  responses : list Response;
  exited : bool
}.

Inductive Event :=
  | Upload (part : option FilePart) (Date_now random : N)
  | Tick (Date_now : N)
  | Sigint.

Definition step (uploadDir port : string) (p : Proc) (ev : Event) : Proc :=
  if exited p then p
  else match ev with
       | Upload part now random =>
         let '(fs, res) := post_upload uploadDir port part now random (disk p) in
         {| disk := fs; console := console p;
            responses := responses p ++ [res]; exited := false |}
       | Tick now =>
         let '(fs, log) := sweep now (disk p) in
         {| disk := fs; console := console p ++ log;
            responses := responses p; exited := false |}
       | Sigint =>
         {| disk := disk p; console := console p;
            responses := responses p; exited := true |}
       end.

Definition run (uploadDir port : string) (p : Proc) (evs : list Event) : Proc :=
  foldl (step uploadDir port) p evs.

End Server.

(** ** Sample inputs *)

Module Samples.
Import Server.

Definition uploads : string := "/srv/uploads".

Definition report_pdf : FilePart :=
  {| originalname := "report.pdf"; mimetype := "application/pdf"; stream_bytes := 2048 |}.
Definition photo_png : FilePart :=
  {| originalname := "photo.png"; mimetype := "image/png"; stream_bytes := 2048 |}.
Definition bashrc_png : FilePart :=
  {| originalname := ".bashrc"; mimetype := "image/png"; stream_bytes := 2048 |}.
Definition a_png : FilePart :=
  {| originalname := "a.png"; mimetype := "image/png"; stream_bytes := 10 |}.
Definition b_png : FilePart :=
  {| originalname := "b.png"; mimetype := "image/png"; stream_bytes := 20 |}.

(** A clip of [bytes] bytes. *)
Definition clip_mp4 (bytes : N) : FilePart :=
  {| originalname := "clip.mp4"; mimetype := "video/mp4"; stream_bytes := bytes |}.

(** A directory holding a picture created at 1730000000000 and a clip
    created 24 hours later. *)
Definition two_files : Dir :=
  {| readdir_error := None;
     entries := <["image_1730000000000_42.png" := regular_file 1730000000000 2048]>
                (<["video_1730086400000_7.mp4" := regular_file 1730086400000 4096]> ∅) |}.

(** An old picture that cannot be deleted, next to one that can. *)
Definition locked_png : Inode :=
  {| birthtimeMs := 1720000000000; ino_size := 10;
     stat_error := None; unlink_error := Some "EPERM" |}.
Definition with_locked : gmap string Inode :=
  <["image_1720000000000_1.png" := locked_png]>
  (<["image_1730000000000_42.png" := regular_file 1730000000000 2048]> ∅).

Definition fresh_process : Proc :=
  {| disk := None; console := []; responses := []; exited := false |}.

Definition shell_php_png : FilePart :=
  {| originalname := "shell.php.png"; mimetype := "image/png"; stream_bytes := 512 |}.

(** A morning on a fresh server: a firing of the timer, two uploads, a
    request without a file, a firing a day later. *)
Definition a_day : list Event :=
  [ Tick 1730000000000;
    Upload (Some photo_png) 1730000000500 42;
    Upload (Some report_pdf) 1730000000600 43;
    Upload None 1730000000700 44;
    Upload (Some (clip_mp4 4096)) 1730000000800 45;
    Tick 1730086400000 ].

End Samples.

(** ** Vocabulary of the invariants *)

Module Invariants.
Import Server.

(** [k] is a name [storage.filename] gives to a part of an allowed type. *)
Definition named_by_upload (k : string) : Prop :=
  ∃ file now rnd, mimetype file ∈ ALLOWED_FILE_TYPES ∧ k = filename file now rnd.

(** Every file under the storage root carries such a name. *)
Definition only_uploads (fs : Fs) : Prop :=
  ∀ k, is_Some (disk_entries fs !! k) → named_by_upload k.

End Invariants.

(** ** Loop invariant of [Path.ext_loop] *)

Module ExtInv.
Import Path.

(** What [preDotState] records about the characters [pre] of the last
    component that precede its last dot. *)
Definition pre_dot (pre : list ascii) : Z :=
  match pre with
  | [] => 0
  | c :: _ => if Ascii.eqb c CHAR_DOT then 1 else -1
  end.

Definition is_sep (c : ascii) : Prop := isPathSeparator c = true.
Definition no_sep (c : ascii) : Prop := isPathSeparator c = false.

(** [comp] is the part of the last component visited so far, the loop
    being about to visit index [k - 1]. *)
Definition dot_info (k : nat) (comp : list ascii) (st : ext_state) : Prop :=
  (startDot st = -1 ∧ preDotState st = 0 ∧ CHAR_DOT ∉ comp) ∨
  (∃ pre suf, comp = pre ++ (CHAR_DOT :: suf) ∧ (CHAR_DOT ∉ suf) ∧
     startDot st = Z.of_nat (k + length pre) ∧ preDotState st = pre_dot pre).

Definition in_component (p : list ascii) (k : nat) (st : ext_state) : Prop :=
  ∃ comp trail, drop k p = comp ++ trail ∧ comp ≠ [] ∧
    Forall no_sep comp ∧ Forall is_sep trail ∧
    end_ st = Z.of_nat (k + length comp) ∧ matchedSlash st = false ∧
    dot_info k comp st.

Definition ext_inv (p : list ascii) (k : nat) (st : ext_state) : Prop :=
  (st = ext_init ∧ Forall is_sep (drop k p)) ∨
  (in_component p k st ∧ startPart st = 0).

Definition ext_post (p : list ascii) (st : ext_state) : Prop :=
  (st = ext_init ∧ Forall is_sep p) ∨
  (∃ k, (k ≤ length p)%nat ∧ in_component p k st ∧ startPart st = Z.of_nat k ∧
     (k = O ∨ ∃ i c, k = S i ∧ p !! i = Some c ∧ is_sep c)).

End ExtInv.

(** * Properties *)

Example extname_photo : Path.extname "photo.png" = ".png".
Proof. reflexivity. Qed.
Example extname_dotfile : Path.extname ".bashrc" = "".
Proof. reflexivity. Qed.
Example extname_samples :
  Path.extname "..." = "." ∧ Path.extname ".." = "" ∧ Path.extname "a.b.c" = ".c" ∧
  Path.extname "a.txt/" = ".txt" ∧ Path.extname "x.d/abc" = "" ∧
  Path.extname "x/.a.b" = ".b" ∧ Path.extname "a." = "." ∧ Path.extname "/.." = "" ∧
  Path.extname "a/..b" = ".b".
Proof. repeat split; reflexivity. Qed.
Example Number_toString_samples :
  Js.Number_toString 0 = "0" ∧ Js.Number_toString 1730000000123 = "1730000000123".
Proof. split; reflexivity. Qed.

Example component_extension_sample :
  Path.component_extension "a/b.tar.gz//" = ".gz".
Proof. reflexivity. Qed.

(** ** Facts about [path.extname] *)

Section Extname.
Import Js Path ExtInv.

Lemma drop_while_app_all {A} (f : A → bool) l1 l2 :
  Forall (λ x, f x = true) l1 → drop_while f (l1 ++ l2) = drop_while f l2.
Proof. induction 1 as [|x l Hx _ IH]; simpl; [done|]. by rewrite Hx. Qed.

Lemma take_while_app_all {A} (f : A → bool) l1 l2 :
  Forall (λ x, f x = true) l1 → take_while f (l1 ++ l2) = l1 ++ take_while f l2.
Proof. induction 1 as [|x l Hx _ IH]; simpl; [done|]. rewrite Hx, IH; done. Qed.

Lemma Forall_rev_iff {A} (P : A → Prop) l : Forall P (rev l) ↔ Forall P l.
Proof.
  induction l as [|x l IH]; simpl; [done|].
  rewrite Forall_app, !Forall_cons, IH. pose proof (Forall_nil_2 P). tauto.
Qed.

Lemma not_dot_true_iff c : not_dot c = true ↔ c ≠ CHAR_DOT.
Proof.
  unfold not_dot. destruct (Ascii.eqb_spec c CHAR_DOT); simpl; split; congruence.
Qed.

Lemma no_dot_Forall l : CHAR_DOT ∉ l ↔ Forall (λ c, not_dot c = true) l.
Proof.
  rewrite Forall_forall. split.
  - intros H c Hc. apply not_dot_true_iff. intros ->. done.
  - intros H Hin. apply H in Hin. by apply not_dot_true_iff in Hin.
Qed.

Lemma split_last_dot_none comp : CHAR_DOT ∉ comp → split_last_dot comp = None.
Proof.
  intros H. unfold split_last_dot.
  rewrite <-(app_nil_r (rev comp)), drop_while_app_all; [done|].
  apply Forall_rev_iff. by apply no_dot_Forall.
Qed.

Lemma split_last_dot_some pre suf :
  CHAR_DOT ∉ suf → split_last_dot (pre ++ CHAR_DOT :: suf) = Some (pre, suf).
Proof.
  intros H. unfold split_last_dot.
  assert (Hs : Forall (λ c, not_dot c = true) (rev suf)).
  { apply Forall_rev_iff. by apply no_dot_Forall. }
  rewrite rev_app_distr. simpl rev. rewrite <-!app_assoc. simpl.
  rewrite drop_while_app_all, take_while_app_all by done. simpl.
  rewrite app_nil_r, !rev_involutive. done.
Qed.

Lemma in_component_startPart p k v st :
  in_component p k st → in_component p k (set_startPart v st).
Proof. destruct st; unfold in_component, dot_info; simpl; done. Qed.

(** One iteration on a character that is not a separator. *)
Lemma ext_char_inv p i c st :
  p !! i = Some c → no_sep c → ext_inv p (S i) st →
  ext_inv p i (ext_char c (Z.of_nat i) st).
Proof.
  intros Hi Hc Hinv. right.
  pose proof (drop_S _ _ _ Hi) as Hd.
  destruct Hinv as [[-> Hall] | [(comp & trail & Hdrop & Hne & Hcomp & Htrail & Hend & Hms & Hdot) Hsp]].
  - unfold ext_char; simpl.
    destruct (Ascii.eqb_spec c CHAR_DOT) as [->|Hnd]; simpl; (split; [|done]).
    + exists [CHAR_DOT], (drop (S i) p). simpl.
      repeat split; try done; [by constructor | lia |].
      right. exists [], []. simpl. repeat split; try done; [apply not_elem_of_nil | lia].
    + exists [c], (drop (S i) p). simpl.
      repeat split; try done; [by constructor | lia |].
      left. repeat split; try done. intros E%list_elem_of_singleton; congruence.
  - destruct st as [sd sp e ms pds]; unfold dot_info in *; simpl in *. subst e ms sp.
    unfold ext_char; simpl.
    destruct (Z.eqb_spec (Z.of_nat (S i + length comp)) (-1)) as [?|_]; [lia|].
    assert (Hdrop' : drop i p = (c :: comp) ++ trail) by (rewrite Hd, Hdrop; done).
    assert (Hcomp' : Forall no_sep (c :: comp)) by (by constructor).
    destruct Hdot as [(-> & -> & Hno) | (pre & suf & -> & Hsuf & -> & ->)]; simpl.
    + destruct (Ascii.eqb_spec c CHAR_DOT) as [Hcd|Hnd]; simpl; (split; [|done]);
        exists (c :: comp), trail; simpl; repeat split; try done; try lia.
      * right. exists [], comp. simpl. repeat split; try done; [congruence | lia].
      * left. repeat split; try done.
        intros [?| ?]%elem_of_cons; congruence.
    + destruct (Z.eqb_spec (Z.of_nat (S i + length pre)) (-1)) as [?|_]; [lia|]. simpl.
      destruct (Ascii.eqb_spec c CHAR_DOT) as [Hcd|Hnd]; simpl.
      * destruct (Z.eqb_spec (pre_dot pre) 1) as [E|E]; simpl; (split; [|done]);
          exists (c :: pre ++ CHAR_DOT :: suf), trail; simpl;
          repeat split; try done; try lia;
          right; exists (c :: pre), suf; simpl; repeat split; try done; try lia;
          destruct (Ascii.eqb_spec c CHAR_DOT); congruence.
      * split; [|done].
        exists (c :: pre ++ CHAR_DOT :: suf), trail; simpl.
        repeat split; try done; try lia.
        right; exists (c :: pre), suf; simpl. repeat split; try done; [lia|].
        destruct (Ascii.eqb_spec c CHAR_DOT); congruence.
Qed.

(** The loop establishes [ext_post] from [ext_inv]. *)
Lemma ext_loop_post p k st :
  (k ≤ length p)%nat → ext_inv p k st → ext_post p (ext_loop p k st).
Proof.
  revert st. induction k as [|i IH]; intros st Hk Hinv; simpl.
  - destruct Hinv as [[-> Hall] | [Hin Hsp]].
    + left. by rewrite drop_0 in Hall.
    + right. exists O. split; [lia|]. split; [done|]. split; [done|]. by left.
  - destruct (lookup_lt_is_Some_2 p i) as [c Hi]; [lia|]. rewrite Hi.
    destruct (isPathSeparator c) eqn:Hc.
    + destruct Hinv as [[-> Hall] | [Hin Hsp]].
      * simpl. apply IH; [lia|]. left. split; [done|].
        rewrite (drop_S _ _ _ Hi). by constructor.
      * assert (matchedSlash st = false) as ->.
        { by destruct Hin as (? & ? & ? & ? & ? & ? & ? & ? & ?). }
        simpl. right. exists (S i). repeat split.
        -- lia.
        -- by apply in_component_startPart.
        -- destruct st; simpl; lia.
        -- right. by exists i, c.
    + apply IH; [lia|]. by apply ext_char_inv.
Qed.

Lemma last_component_all_sep p : Forall is_sep p → last_component p = [].
Proof.
  intros H. unfold last_component.
  rewrite <-(app_nil_r (rev p)), drop_while_app_all; [done|].
  by apply Forall_rev_iff.
Qed.

Lemma no_sep_not_sep c : no_sep c ↔ not_sep c = true.
Proof. unfold no_sep, not_sep. destruct (isPathSeparator c); simpl; split; congruence. Qed.

Lemma last_component_decomp dir comp trail :
  comp ≠ [] → Forall no_sep comp → Forall is_sep trail →
  (dir = [] ∨ ∃ d c, dir = d ++ [c] ∧ is_sep c) →
  last_component (dir ++ comp ++ trail) = comp.
Proof.
  intros Hne Hcomp Htrail Hdir. unfold last_component.
  rewrite !rev_app_distr, <-app_assoc.
  rewrite drop_while_app_all by (by apply Forall_rev_iff).
  assert (Hrc : Forall (λ c, not_sep c = true) (rev comp)).
  { apply Forall_rev_iff. eapply Forall_impl; [exact Hcomp|]. intros c. apply no_sep_not_sep. }
  assert (Hd : drop_while isPathSeparator (rev comp ++ rev dir) = rev comp ++ rev dir).
  { destruct (rev comp) as [|c r] eqn:E.
    - apply (f_equal (@rev _)) in E. rewrite rev_involutive in E. done.
    - simpl. apply Forall_cons in Hrc as [Hc _]. unfold not_sep in Hc.
      destruct (isPathSeparator c); done. }
  rewrite Hd, take_while_app_all by done.
  assert (Ht : take_while not_sep (rev dir) = []).
  { destruct Hdir as [-> | (d & c & -> & Hc)]; [done|].
    rewrite rev_app_distr. cbn [rev app take_while]. unfold not_sep.
    rewrite Hc. done. }
  by rewrite Ht, app_nil_r, rev_involutive.
Qed.

Lemma slice_app_mid {A} (a b c : list A) :
  slice (a ++ b ++ c) (Z.of_nat (length a)) (Z.of_nat (length a + length b)) = b.
Proof.
  unfold slice. rewrite !length_app.
  destruct (Z.ltb_spec (Z.of_nat (length a)) 0); [lia|].
  destruct (Z.ltb_spec (Z.of_nat (length a + length b)) 0); [lia|].
  rewrite !Z.min_l by lia.
  replace (Z.to_nat (Z.of_nat (length a))) with (length a) by lia.
  replace (Z.to_nat (Z.of_nat (length a + length b) - Z.of_nat (length a)))
    with (length b) by lia.
  rewrite drop_app_length, take_app_length. done.
Qed.

(** [path.extname] returns the extension of the last component. *)
Lemma extname_chars_spec p :
  extname_chars p = ext_of_component (last_component p).
Proof.
  unfold extname_chars.
  destruct (ext_loop_post p (length p) ext_init) as
    [[-> Hall] | (k & Hk & (comp & trail & Hdrop & Hne & Hcomp & Htrail & Hend & Hms & Hdot) & Hsp & Hk')].
  { done. }
  { left. split; [done|]. rewrite drop_all. constructor. }
  - simpl. by rewrite last_component_all_sep.
  - assert (Hp : p = take k p ++ comp ++ trail) by (by rewrite <-Hdrop, take_drop).
    assert (Hlen : length (take k p) = k) by (rewrite length_take; lia).
    assert (Hlast : last_component p = comp).
    { rewrite Hp. apply last_component_decomp; try done.
      destruct Hk' as [-> | (i & c & -> & Hi & Hc)]; [by left|].
      right. exists (take i p), c. split; [|done]. by apply take_S_r. }
    rewrite Hlast. unfold ext_of_component.
    destruct Hdot as [(Hsd & Hpd & Hno) | (pre & suf & -> & Hsuf & Hsd & Hpd)].
    + rewrite Hsd. simpl. by rewrite split_last_dot_none.
    + rewrite split_last_dot_some by done.
      rewrite Hsd, Hend, Hpd, Hsp, length_app. simpl length.
      destruct (Z.eqb_spec (Z.of_nat (k + length pre)) (-1)) as [?|_]; [lia|].
      destruct (Z.eqb_spec (Z.of_nat (k + (length pre + S (length suf)))) (-1)) as [?|_]; [lia|].
      simpl.
      destruct pre as [|c0 pre]; [done|].
      rewrite (bool_decide_eq_false_2 (c0 :: pre = [])) by done. simpl.
      destruct (decide (c0 :: pre = [CHAR_DOT] ∧ suf = [])) as [[E ->]|N].
      * injection E as -> ->. simpl.
        destruct (Z.eqb_spec (Z.of_nat (k + 1)) (Z.of_nat (k + 2) - 1)); [|lia].
        destruct (Z.eqb_spec (Z.of_nat (k + 1)) (Z.of_nat k + 1)); [|lia].
        done.
      * assert (Hb : bool_decide (c0 :: pre ++ CHAR_DOT :: suf = [CHAR_DOT; CHAR_DOT]) = false).
        { apply bool_decide_eq_false_2. intros E. apply N.
          injection E as -> E. destruct pre as [|c1 pre].
          - injection E as ->. done.
          - injection E as _ E. by destruct pre. }
        rewrite Hb.
        assert (Hc : ((if Ascii.eqb c0 CHAR_DOT then 1 else -1) =? 0) = false)
          by (destruct (Ascii.eqb c0 CHAR_DOT); done).
        rewrite Hc. simpl.
        assert (Hd : (((if Ascii.eqb c0 CHAR_DOT then 1 else -1) =? 1) &&
                      (Z.of_nat (k + S (length pre)) =?
                         Z.of_nat (k + S (length pre + S (length suf))) - 1) &&
                      (Z.of_nat (k + S (length pre)) =? Z.of_nat k + 1)) = false).
        { apply not_true_is_false. intros Ht.
          apply andb_prop in Ht as [Ht H3]. apply andb_prop in Ht as [H1 H2].
          apply Z.eqb_eq in H2, H3. apply N.
          destruct pre; [|simpl in H3; lia]. destruct suf; [|simpl in H2; lia].
          destruct (Ascii.eqb_spec c0 CHAR_DOT) as [->|]; done. }
        rewrite Hd.
        rewrite Hp at 1.
        replace (take k p ++ ((c0 :: pre) ++ CHAR_DOT :: suf) ++ trail)
          with ((take k p ++ c0 :: pre) ++ (CHAR_DOT :: suf) ++ trail)
          by (by rewrite <-!app_assoc).
        replace (Z.of_nat (k + S (length pre))) with (Z.of_nat (length (take k p ++ c0 :: pre)))
          by (rewrite length_app, Hlen; done).
        replace (Z.of_nat (k + S (length pre + S (length suf))))
          with (Z.of_nat (length (take k p ++ c0 :: pre) + length (CHAR_DOT :: suf)))
          by (rewrite length_app, Hlen; simpl; lia).
        apply slice_app_mid.
Qed.

Lemma take_while_Forall {A} (f : A → bool) l : Forall (λ x, f x = true) (take_while f l).
Proof.
  induction l as [|x l IH]; simpl; [constructor|].
  destruct (f x) eqn:E; by constructor.
Qed.

Lemma take_drop_while {A} (f : A → bool) l : take_while f l ++ drop_while f l = l.
Proof.
  induction l as [|x l IH]; simpl; [done|].
  destruct (f x); simpl; [by rewrite IH | done].
Qed.

Lemma drop_while_head {A} (f : A → bool) l x l' : drop_while f l = x :: l' → f x = false.
Proof.
  induction l as [|y l IH]; simpl; [done|].
  destruct (f y) eqn:E; [done|]. intros [= -> _]. done.
Qed.

Lemma split_last_dot_inv c pre suf :
  split_last_dot c = Some (pre, suf) → c = pre ++ CHAR_DOT :: suf ∧ CHAR_DOT ∉ suf.
Proof.
  unfold split_last_dot. destruct (drop_while not_dot (rev c)) as [|a pre_r] eqn:E; [done|].
  intros [= <- <-].
  assert (a = CHAR_DOT) as ->.
  { apply drop_while_head in E. unfold not_dot in E.
    destruct (Ascii.eqb_spec a CHAR_DOT); done. }
  split.
  - rewrite <-(rev_involutive c) at 1.
    rewrite <-(take_drop_while not_dot (rev c)), E at 1.
    rewrite rev_app_distr. simpl. by rewrite <-app_assoc.
  - apply no_dot_Forall, Forall_rev_iff, take_while_Forall.
Qed.

Lemma last_component_no_sep p : Forall no_sep (last_component p).
Proof.
  unfold last_component. apply Forall_rev_iff.
  eapply Forall_impl; [apply take_while_Forall|]. intros c. apply no_sep_not_sep.
Qed.

Lemma elem_of_rev {A} (x : A) l : x ∈ rev l ↔ x ∈ l.
Proof. rewrite !list_elem_of_In. symmetry. apply in_rev. Qed.

Lemma elem_of_take_while {A} (f : A → bool) x l : x ∈ take_while f l → x ∈ l.
Proof.
  intros H. rewrite <-(take_drop_while f l). apply elem_of_app. by left.
Qed.

Lemma elem_of_drop_while {A} (f : A → bool) x l : x ∈ drop_while f l → x ∈ l.
Proof.
  intros H. rewrite <-(take_drop_while f l). apply elem_of_app. by right.
Qed.

Lemma elem_of_last_component x p : x ∈ last_component p → x ∈ p.
Proof.
  unfold last_component. rewrite elem_of_rev.
  intros H%elem_of_take_while%elem_of_drop_while. by apply elem_of_rev.
Qed.

(** An extension is empty, or a dot followed by characters that are
    neither dots nor separators and that end the last component. *)
Lemma ext_of_component_shape c :
  ext_of_component c = [] ∨
  ∃ pre suf, c = pre ++ (CHAR_DOT :: suf) ∧ (CHAR_DOT ∉ suf) ∧
    ext_of_component c = CHAR_DOT :: suf.
Proof.
  unfold ext_of_component. destruct (split_last_dot c) as [[pre suf]|] eqn:E; [|by left].
  apply split_last_dot_inv in E as [-> Hsuf].
  destruct (_ || _); [by left|]. right. by exists pre, suf.
Qed.

Lemma extname_chars_no_sep p : Forall no_sep (extname_chars p).
Proof.
  rewrite extname_chars_spec.
  destruct (ext_of_component_shape (last_component p)) as [-> | (pre & suf & E & _ & ->)];
    [constructor|].
  pose proof (last_component_no_sep p) as H. rewrite E in H.
  by apply Forall_app in H as [_ H].
Qed.

Lemma extname_chars_no_dot p : CHAR_DOT ∉ p → extname_chars p = [].
Proof.
  intros H. rewrite extname_chars_spec. unfold ext_of_component.
  rewrite split_last_dot_none; [done|]. intros Hin. by apply H, elem_of_last_component.
Qed.

Lemma extname_chars_head p :
  extname_chars p = [] ∨ ∃ suf, extname_chars p = CHAR_DOT :: suf.
Proof.
  rewrite extname_chars_spec.
  destruct (ext_of_component_shape (last_component p)) as [-> | (pre & suf & _ & _ & ->)];
    [by left | right; by exists suf].
Qed.

End Extname.

(** ** Facts about the string primitives *)

Section Strings.
Import Js.

Lemma chars_app (a b : string) : chars (a +:+ b) = chars a ++ chars b.
Proof. induction a as [|c a IH]; simpl; [done|]. by rewrite <-IH. Qed.

Lemma chars_inj (a b : string) : chars a = chars b → a = b.
Proof.
  intros H. rewrite <-(String.string_of_list_ascii_of_string a),
    <-(String.string_of_list_ascii_of_string b). by rewrite H.
Qed.

Lemma chars_str l : chars (str l) = l.
Proof. apply String.list_ascii_of_string_of_list_ascii. Qed.

Lemma includes_spec arr x : includes arr x = true ↔ x ∈ arr.
Proof.
  induction arr as [|y arr IH]; simpl.
  - split; [done | by intros ?%elem_of_nil].
  - rewrite elem_of_cons. destruct (String.eqb_spec y x) as [->|Hne].
    + split; [by left | done].
    + rewrite IH. split; [by right | by intros [->|?]].
Qed.

Lemma split_head_no_sep sep s : sep ∉ chars (split_head sep s).
Proof.
  induction s as [|c s IH]; simpl; [apply not_elem_of_nil|].
  destruct (Ascii.eqb_spec c sep) as [->|Hne]; simpl; [apply not_elem_of_nil|].
  intros [?|?]%elem_of_cons; [congruence | done].
Qed.

Lemma split_head_whole sep s : sep ∉ chars s → split_head sep s = s.
Proof.
  induction s as [|c s IH]; simpl; [done|]. intros H.
  destruct (Ascii.eqb_spec c sep) as [->|Hne].
  - exfalso. apply H. by left.
  - f_equal. apply IH. intros Hin. apply H. by right.
Qed.

Lemma split_head_app sep a b :
  sep ∉ chars a → split_head sep (a +:+ String sep b) = a.
Proof.
  induction a as [|c a IH]; simpl; intros H.
  - by rewrite Ascii.eqb_refl.
  - destruct (Ascii.eqb_spec c sep) as [->|Hne].
    + exfalso. apply H. by left.
    + f_equal. apply IH. intros Hin. apply H. by right.
Qed.

Lemma string_of_uint_digits d :
  Forall (λ c, is_digit c = true) (chars (NilEmpty.string_of_uint d)).
Proof. induction d; simpl; constructor; done. Qed.

Lemma Number_toString_digits n :
  Forall (λ c, is_digit c = true) (chars (Number_toString n)).
Proof.
  unfold Number_toString, NilZero.string_of_uint.
  destruct (N.to_uint n) eqn:E; try (rewrite <-E; apply string_of_uint_digits).
  simpl. by constructor.
Qed.

Lemma to_uint_nonnil n : N.to_uint n ≠ Decimal.Nil.
Proof. destruct n; simpl; [done|]. apply DecimalPos.Unsigned.to_uint_nonnil. Qed.

Lemma Number_toString_nonempty n : Number_toString n ≠ "".
Proof.
  unfold Number_toString. pose proof (to_uint_nonnil n).
  destruct (N.to_uint n); done.
Qed.

Lemma Number_toString_inj n m : Number_toString n = Number_toString m → n = m.
Proof.
  unfold Number_toString. intros H.
  apply DecimalN.Unsigned.to_uint_inj.
  apply (f_equal NilZero.uint_of_string) in H.
  rewrite !NilZero.usu in H by apply to_uint_nonnil. congruence.
Qed.

(** Two strings made of a separator-free head, the separator and a tail
    are equal only if heads and tails are. *)
Lemma app_sep_inj {A} (c : A) a b x y :
  c ∉ a → c ∉ b → a ++ c :: x = b ++ c :: y → a = b ∧ x = y.
Proof.
  revert b. induction a as [|u a IH]; intros [|v b] Ha Hb E; simpl in E.
  - by injection E as ->.
  - injection E as -> _. exfalso. apply Hb. by left.
  - injection E as -> _. exfalso. apply Ha. by left.
  - injection E as -> E. destruct (IH b) as [-> ->]; try done.
    + intros ?. apply Ha. by right.
    + intros ?. apply Hb. by right.
Qed.

(** The same for a run of digits followed by something that is empty or
    starts with a character that is not a digit. *)
Lemma digits_app_inj a b x y :
  Forall (λ c, is_digit c = true) a → Forall (λ c, is_digit c = true) b →
  ends_digits x → ends_digits y → a ++ x = b ++ y → a = b ∧ x = y.
Proof.
  intros Ha. revert b. induction Ha as [|u a Hu Ha IH]; intros b Hb Hx Hy E.
  - destruct Hb as [|v b Hv Hb]; [done|]. simpl in E. subst x. simpl in Hx. congruence.
  - destruct Hb as [|v b Hv Hb]; simpl in E.
    + subst y. simpl in Hy. congruence.
    + injection E as -> E. destruct (IH b) as [-> ->]; done.
Qed.

End Strings.

(** ** Stored names *)

Section Naming.
Import Js Path Server.

Lemma append_assoc (a b c : string) : (a +:+ b) +:+ c = a +:+ b +:+ c.
Proof. apply chars_inj. by rewrite !chars_app, app_assoc. Qed.

Lemma chars_extname p : chars (extname p) = extname_chars (chars p).
Proof. apply chars_str. Qed.

Lemma extname_component_extension p : extname p = component_extension p.
Proof. unfold extname, component_extension. by rewrite extname_chars_spec. Qed.

Lemma chars_filename file now rnd :
  chars (filename file now rnd) =
    chars (split_head "/" (mimetype file)) ++ "_"%char ::
    chars (Number_toString now) ++ "_"%char ::
    chars (Number_toString rnd) ++ extname_chars (chars (originalname file)).
Proof.
  unfold filename. rewrite !chars_app, chars_extname.
  rewrite <-!app_assoc. reflexivity.
Qed.

Lemma split_head_decomp sep s :
  s = split_head sep s ∨ ∃ rest, s = split_head sep s +:+ String sep rest.
Proof.
  induction s as [|c s IH]; simpl; [by left|].
  destruct (Ascii.eqb_spec c sep) as [->|Hne].
  - right. by exists s.
  - destruct IH as [IH | [rest IH]].
    + left. by rewrite <-IH.
    + right. exists rest. rewrite IH at 1. reflexivity.
Qed.

Lemma digit_not c d : is_digit c = true → is_digit d = false → c ≠ d.
Proof. congruence. Qed.

Lemma no_char_in_digits c l :
  is_digit c = false → Forall (λ x, is_digit x = true) l → c ∉ l.
Proof.
  intros Hc Hl Hin. rewrite Forall_forall in Hl. apply Hl in Hin. congruence.
Qed.

(** The type tag of an allowed MIME type. *)
Lemma allowed_type_tag m :
  m ∈ ALLOWED_FILE_TYPES → split_head "/" m = "image" ∨ split_head "/" m = "video".
Proof.
  unfold ALLOWED_FILE_TYPES. rewrite !elem_of_cons, elem_of_nil.
  intros [->|[->|[->|[->|[->|[->|[->|[]]]]]]]]; simpl; auto.
Qed.

Lemma filename_no_slash file now rnd :
  CHAR_FORWARD_SLASH ∉ chars (filename file now rnd).
Proof.
  rewrite chars_filename.
  assert (Hd : ∀ n, CHAR_FORWARD_SLASH ∉ chars (Number_toString n)).
  { intros n. apply no_char_in_digits; [done | apply Number_toString_digits]. }
  repeat (rewrite elem_of_app || rewrite elem_of_cons).
  intros [H|[H|[H|[H|[H|H]]]]]; try done.
  - by apply split_head_no_sep in H.
  - by apply Hd in H.
  - by apply Hd in H.
  - pose proof (extname_chars_no_sep (chars (originalname file))) as Hs.
    rewrite Forall_forall in Hs. apply Hs in H. done.
Qed.

End Naming.

(** ** Where a stored name lands *)

Section Components.
Import Js Path Server.

Lemma split_sep_nonempty p : split_sep p ≠ [].
Proof.
  destruct p as [|c p]; simpl; [done|].
  destruct (isPathSeparator c); [done|]. by destruct (split_sep p).
Qed.

Lemma split_sep_app a b :
  split_sep (a ++ CHAR_FORWARD_SLASH :: b) = split_sep a ++ split_sep b.
Proof.
  induction a as [|c a IH]; [reflexivity|].
  change ((c :: a) ++ CHAR_FORWARD_SLASH :: b) with (c :: (a ++ CHAR_FORWARD_SLASH :: b)).
  cbn [split_sep]. rewrite IH. destruct (isPathSeparator c); [done|].
  pose proof (split_sep_nonempty a). by destruct (split_sep a).
Qed.

Lemma split_sep_single n : CHAR_FORWARD_SLASH ∉ n → split_sep n = [n].
Proof.
  induction n as [|c n IH]; intros H; [done|]. cbn [split_sep].
  assert (Hc : isPathSeparator c = false).
  { unfold isPathSeparator. destruct (Ascii.eqb_spec c CHAR_FORWARD_SLASH) as [->|]; [|done].
    exfalso. apply H. by left. }
  rewrite Hc, IH; [done|]. intros ?. apply H. by right.
Qed.

(** Joining a directory with a name that is one ordinary component adds
    that component below the directory. *)
Lemma components_join dir name :
  CHAR_FORWARD_SLASH ∉ name → name ≠ [] → name ≠ [CHAR_DOT] →
  name ≠ [CHAR_DOT; CHAR_DOT] →
  components (dir ++ CHAR_FORWARD_SLASH :: name) = components dir ++ [name].
Proof.
  intros Hs H0 H1 H2. unfold components.
  rewrite split_sep_app, foldl_app, (split_sep_single name) by done.
  cbn [foldl]. unfold push_segment.
  by rewrite !bool_decide_eq_false_2.
Qed.

(** A stored name has an underscore in it: it is none of the special
    components. *)
Lemma filename_underscore file now rnd :
  "_"%char ∈ chars (filename file now rnd).
Proof.
  rewrite chars_filename. apply elem_of_app. right. by left.
Qed.

End Components.

(** ** The cleanup pass *)

Section Sweep.
Import Js Server.

Lemma sweep_file_eq now es log file :
  sweep_file now (es, log) file =
    (if removable now es file then delete file es else es, log ++ verdict now es file).
Proof.
  unfold sweep_file, removable, verdict, stat, unlink, too_old.
  destruct (es !! file) as [ino|] eqn:E; [|done].
  destruct (stat_error ino) as [code|] eqn:Es; simpl; [done|].
  destruct (_ >? _); simpl; [|by rewrite app_nil_r].
  destruct (unlink_error ino) as [code|] eqn:Eu; simpl; done.
Qed.

Lemma removable_ext now es1 es2 file :
  es1 !! file = es2 !! file → removable now es1 file = removable now es2 file.
Proof. unfold removable. by intros ->. Qed.

Lemma verdict_ext now es1 es2 file :
  es1 !! file = es2 !! file → verdict now es1 file = verdict now es2 file.
Proof.
  unfold verdict, stat, unlink. intros ->.
  destruct (es2 !! file) as [ino|]; [|done].
  destruct (stat_error ino); [done|]. destruct (too_old now ino); [|done].
  by destruct (unlink_error ino).
Qed.

Lemma removable_verdict now es file :
  removable now es file = true ↔ verdict now es file = [LogDeleted file].
Proof.
  unfold removable, verdict, stat, unlink.
  destruct (es !! file) as [ino|]; [|done].
  destruct (stat_error ino); simpl; [done|].
  destruct (too_old now ino); simpl; [|done].
  by destruct (unlink_error ino).
Qed.

(** The directory after the files of a listing have been visited. *)
Lemma sweep_files_acc_lookup now files es log name :
  (foldl (sweep_file now) (es, log) files).1 !! name =
    if bool_decide (name ∈ files) && removable now es name then None else es !! name.
Proof.
  revert es log. induction files as [|x files IH]; intros es log; [done|].
  cbn [foldl]. rewrite sweep_file_eq, IH.
  destruct (decide (name = x)) as [->|Hne].
  - rewrite (bool_decide_eq_true_2 (x ∈ x :: files)) by (by left). simpl.
    destruct (removable now es x) eqn:Er.
    + rewrite lookup_delete_eq. unfold removable at 1. rewrite lookup_delete_eq.
      by rewrite andb_false_r.
    + rewrite Er. by rewrite andb_false_r.
  - assert (Hl : (if removable now es x then delete x es else es) !! name = es !! name).
    { destruct (removable now es x); [by rewrite lookup_delete_ne | done]. }
    rewrite (removable_ext _ _ es) by done. rewrite Hl.
    assert (Hb : bool_decide (name ∈ x :: files) = bool_decide (name ∈ files)).
    { apply bool_decide_ext. rewrite elem_of_cons.
      split; [intros [?|?]; [congruence | assumption] | by right]. }
    by rewrite Hb.
Qed.

Lemma sweep_files_lookup now files es name :
  (sweep_files now files es).1 !! name =
    if bool_decide (name ∈ files) && removable now es name then None else es !! name.
Proof. apply sweep_files_acc_lookup. Qed.

(** The console only grows. *)
Lemma sweep_files_acc_log_mono now files es log line :
  line ∈ log → line ∈ (foldl (sweep_file now) (es, log) files).2.
Proof.
  revert es log. induction files as [|x files IH]; intros es log H; [done|].
  cbn [foldl]. rewrite sweep_file_eq. apply IH, elem_of_app. by left.
Qed.

(** A failure on a listed file reaches the console. *)
Lemma sweep_files_acc_log_error now files es0 es log bad line :
  bad ∈ files → es !! bad = es0 !! bad →
  verdict now es0 bad = [line] → is_error_line line →
  line ∈ (foldl (sweep_file now) (es, log) files).2.
Proof.
  intros Hin Hsame Hv Herr. revert es log Hsame.
  induction files as [|x files IH]; intros es log Hsame; [by apply elem_of_nil in Hin|].
  cbn [foldl]. rewrite sweep_file_eq.
  assert (Hnr : removable now es bad = false).
  { apply not_true_is_false. intros Hr%removable_verdict.
    rewrite (verdict_ext _ _ es0) in Hr by done.
    rewrite Hv in Hr. injection Hr as ->. done. }
  apply elem_of_cons in Hin as [<-|Hin].
  - apply sweep_files_acc_log_mono, elem_of_app. right.
    rewrite (verdict_ext _ _ es0), Hv by done. by left.
  - apply IH; [done|].
    destruct (decide (x = bad)) as [->|Hne]; [by rewrite Hnr|].
    destruct (removable now es x); [by rewrite lookup_delete_ne | done].
Qed.

(** A pass over a directory in which nothing is removable changes nothing
    and reports no deletion. *)
Lemma sweep_files_acc_idle now files es log :
  (∀ f, removable now es f = false) →
  (foldl (sweep_file now) (es, log) files).1 = es ∧
  ∀ f, LogDeleted f ∈ (foldl (sweep_file now) (es, log) files).2 → LogDeleted f ∈ log.
Proof.
  intros Hno. revert log. induction files as [|x files IH]; intros log; [done|].
  cbn [foldl]. rewrite sweep_file_eq, Hno.
  destruct (IH (log ++ verdict now es x)) as [-> Hlog]. split; [done|].
  intros f Hf. apply Hlog, elem_of_app in Hf as [Hf|Hf]; [done|].
  exfalso. assert (Hx := Hno x).
  apply not_true_iff_false in Hx. apply Hx, removable_verdict.
  revert Hf. unfold verdict.
  destruct (stat es x); [by intros [?|?%elem_of_nil]%elem_of_cons|].
  destruct (too_old now _); [|by intros ?%elem_of_nil].
  destruct (unlink es x); [by intros [?|?%elem_of_nil]%elem_of_cons|].
  intros [E|?%elem_of_nil]%elem_of_cons; [|done]. congruence.
Qed.

Lemma elem_of_listing (es : gmap string Inode) name :
  name ∈ (map_to_list es).*1 ↔ is_Some (es !! name).
Proof.
  rewrite list_elem_of_fmap. split.
  - intros [[k v] [-> H%elem_of_map_to_list]]. by exists v.
  - intros [v H]. exists (name, v). split; [done|]. by apply elem_of_map_to_list.
Qed.

End Sweep.

(** ** Upload validation *)

Section Ingest.
Import Js Path Server.

Lemma allowed_types_iff m :
  m ∈ ALLOWED_FILE_TYPES ↔
  m = "image/jpeg" ∨ m = "image/png" ∨ m = "image/gif" ∨ m = "image/webp" ∨
  m = "video/mp4" ∨ m = "video/mpeg" ∨ m = "video/quicktime".
Proof.
  unfold ALLOWED_FILE_TYPES. rewrite !elem_of_cons, elem_of_nil.
  split; intros H; repeat (destruct H as [H|H]; [auto 10|]); auto 10; done.
Qed.

Lemma fileFilter_refuses file :
  mimetype file ∉ ALLOWED_FILE_TYPES →
  fileFilter file = (Some (Error "Invalid file type"), false).
Proof.
  intros H. unfold fileFilter.
  destruct (includes ALLOWED_FILE_TYPES (mimetype file)) eqn:E; [|done].
  by apply includes_spec in E.
Qed.

Lemma fileFilter_accepts file :
  mimetype file ∈ ALLOWED_FILE_TYPES → fileFilter file = (None, true).
Proof.
  intros H%includes_spec. unfold fileFilter. by rewrite H.
Qed.


(** C1. A file part whose declared MIME type is not one of the seven
    allowed types (image/jpeg, image/png, image/gif, image/webp, video/mp4,
    video/mpeg, video/quicktime) is refused with the [Invalid file type]
    error and the storage root is left exactly as it was; a part whose type
    is one of the seven is accepted by the type check. *)
Theorem unsupported_type_rejected uploadDir file now rnd fs :
  (mimetype file ∈ ALLOWED_FILE_TYPES ↔
     mimetype file = "image/jpeg" ∨ mimetype file = "image/png" ∨
     mimetype file = "image/gif" ∨ mimetype file = "image/webp" ∨
     mimetype file = "video/mp4" ∨ mimetype file = "video/mpeg" ∨
     mimetype file = "video/quicktime") ∧
  (mimetype file ∉ ALLOWED_FILE_TYPES →
     upload_single uploadDir (Some file) now rnd fs =
       (fs, NextErr (Error "Invalid file type"))) ∧
  (mimetype file ∈ ALLOWED_FILE_TYPES → fileFilter file = (None, true)).
Proof.
  split; [apply allowed_types_iff|]. split.
  - intros H. unfold upload_single. by rewrite fileFilter_refuses.
  - apply fileFilter_accepts.
Qed.

Lemma unsupported_type_rejected_witness :
  upload_single Samples.uploads (Some Samples.report_pdf) 1730000000000 42 None =
    (None, NextErr (Error "Invalid file type")) ∧
  fileFilter Samples.photo_png = (None, true).
Proof.
  split.
  - apply (unsupported_type_rejected Samples.uploads Samples.report_pdf 1730000000000 42 None).
    simpl. intros H%includes_spec. discriminate H.
  - apply (unsupported_type_rejected Samples.uploads Samples.photo_png 1730000000000 42 None).
    simpl. apply includes_spec. reflexivity.
Defined.

(** C2. A request without a file part is answered with status 400 and
    the body [{ success: false, message }].  A request whose file has a
    type that is not allowed, here application/pdf, is answered by the
    error-handling middleware with status 500 and the body
    [{ success: false, message, error }]: [fileFilter] passes an error to
    its callback, which skips the route handler and its 400 answer. *)
Theorem disallowed_type_answered_500 uploadDir port now rnd fs :
  post_upload uploadDir port None now rnd fs =
    (fs, {| status := 400;
            body := BodyFailure "No file was uploaded or file type is not allowed" |}) ∧
  post_upload uploadDir port (Some Samples.report_pdf) now rnd fs =
    (fs, {| status := 500;
            body := BodyFailureWithError "An unexpected error occurred"
                      "Invalid file type" |}).
Proof. split; reflexivity. Qed.

Lemma delete_written name ino (es : gmap string Inode) :
  delete name (<[name := ino]> es) = delete name es.
Proof.
  apply map_eq. intros k. destruct (decide (k = name)) as [->|Hne].
  - by rewrite !lookup_delete_eq.
  - by rewrite !lookup_delete_ne, lookup_insert_ne.
Qed.

(** C3. For a part of an allowed type: when its stream carries more than
    10 MiB (10 * 1024 * 1024 bytes) the upload ends with multer's
    [LIMIT_FILE_SIZE] error, and the file written up to the limit has been
    removed again, nothing else under the storage root being touched; when
    it carries at most 10 MiB, exactly 10 MiB included, it is stored
    whole under its composed name. *)
Theorem oversized_upload_rejected uploadDir file now rnd fs :
  mimetype file ∈ ALLOWED_FILE_TYPES →
  FILE_SIZE_LIMIT = 10485760%N ∧
  ((FILE_SIZE_LIMIT < stream_bytes file)%N →
     (upload_single uploadDir (Some file) now rnd fs).2 =
       NextErr (MulterError "LIMIT_FILE_SIZE" "File too large") ∧
     disk_entries (upload_single uploadDir (Some file) now rnd fs).1 =
       delete (filename file now rnd) (disk_entries fs)) ∧
  ((stream_bytes file ≤ FILE_SIZE_LIMIT)%N →
     stored_name (upload_single uploadDir (Some file) now rnd fs).2 =
       Some (filename file now rnd) ∧
     disk_entries (upload_single uploadDir (Some file) now rnd fs).1
       !! filename file now rnd = Some (regular_file now (stream_bytes file))).
Proof.
  intros Ha. split; [reflexivity|].
  unfold upload_single, limit_exceeded. rewrite (fileFilter_accepts _ Ha).
  split; intros Hsz.
  - apply N.ltb_lt in Hsz. rewrite Hsz. simpl. split; [done|].
    unfold unlink. rewrite lookup_insert_eq. simpl.
    rewrite delete_written. by destruct fs.
  - apply N.ltb_ge in Hsz. rewrite Hsz. simpl. split; [done|].
    by rewrite lookup_insert_eq.
Qed.

Lemma oversized_upload_rejected_witness :
  (upload_single Samples.uploads (Some (Samples.clip_mp4 10485761)) 1730000000000 42 None).2 =
    NextErr (MulterError "LIMIT_FILE_SIZE" "File too large") ∧
  stored_name
    (upload_single Samples.uploads (Some (Samples.clip_mp4 10485760)) 1730000000000 42 None).2 =
    Some "video_1730000000000_42.mp4".
Proof.
  split.
  - apply (oversized_upload_rejected Samples.uploads (Samples.clip_mp4 10485761)
             1730000000000 42 None).
    + apply includes_spec. reflexivity.
    + reflexivity.
  - apply (oversized_upload_rejected Samples.uploads (Samples.clip_mp4 10485760)
             1730000000000 42 None).
    + apply includes_spec. reflexivity.
    + simpl. discriminate.
Defined.

End Ingest.

(** ** Composition, uniqueness and placement of stored names *)

Section StoredNames.
Import Js Path Server.

(** C4. The stored name is the type tag, an underscore, the decimal
    digits of the clock reading, an underscore, the decimal digits of the
    random integer, and the extension.  The type tag is the part of the
    MIME type before its first slash.  The extension is that of the
    original name's last path component: its suffix from its last dot on,
    and the empty string when that component has no dot, when its last dot
    is its first character, or when it is [..].  An image/png upload named
    photo.png is stored as image_<digits>_<digits>.png. *)
Theorem stored_name_composition file now rnd :
  filename file now rnd =
    split_head "/" (mimetype file) +:+ "_" +:+ Number_toString now +:+ "_" +:+
    Number_toString rnd +:+ component_extension (originalname file) ∧
  (("/"%char ∉ chars (split_head "/" (mimetype file))) ∧
   (mimetype file = split_head "/" (mimetype file) ∨
    ∃ rest, mimetype file = split_head "/" (mimetype file) +:+ String "/" rest)) ∧
  (Number_toString now ≠ "" ∧ Forall (λ c, is_digit c = true) (chars (Number_toString now))) ∧
  (Number_toString rnd ≠ "" ∧ Forall (λ c, is_digit c = true) (chars (Number_toString rnd))) ∧
  filename {| originalname := "photo.png"; mimetype := "image/png";
              stream_bytes := stream_bytes file |} now rnd =
    "image_" +:+ Number_toString now +:+ "_" +:+ Number_toString rnd +:+ ".png".
Proof.
  split; [|split; [|split; [|split]]].
  - unfold filename. rewrite extname_component_extension.
    by rewrite !append_assoc.
  - split; [apply split_head_no_sep | apply split_head_decomp].
  - split; [apply Number_toString_nonempty | apply Number_toString_digits].
  - split; [apply Number_toString_nonempty | apply Number_toString_digits].
  - unfold filename. cbn [originalname mimetype].
    change (extname "photo.png") with ".png".
    change (split_head "/" "image/png") with "image".
    by rewrite !append_assoc.
Qed.

(** The composition with the extension read as the suffix of the whole
    name from its last dot fails on a name whose only dot comes first. *)
Lemma dotfile_extension_differs :
  filename Samples.bashrc_png 1730000000000 42 = "image_1730000000000_42" ∧
  split_head "/" (mimetype Samples.bashrc_png) +:+ "_" +:+ Number_toString 1730000000000 +:+
    "_" +:+ Number_toString 42 +:+ suffix_from_last_dot (originalname Samples.bashrc_png) =
    "image_1730000000000_42.bashrc" ∧
  filename Samples.bashrc_png 1730000000000 42 ≠
    split_head "/" (mimetype Samples.bashrc_png) +:+ "_" +:+ Number_toString 1730000000000 +:+
    "_" +:+ Number_toString 42 +:+ suffix_from_last_dot (originalname Samples.bashrc_png).
Proof. split; [reflexivity|]. split; [reflexivity|]. vm_compute. discriminate. Qed.

Lemma ends_digits_extname p : ends_digits (extname_chars p).
Proof. destruct (extname_chars_head p) as [-> | [suf ->]]; done. Qed.

Lemma filename_inj f1 f2 n1 r1 n2 r2 :
  mimetype f1 ∈ ALLOWED_FILE_TYPES → mimetype f2 ∈ ALLOWED_FILE_TYPES →
  filename f1 n1 r1 = filename f2 n2 r2 →
  split_head "/" (mimetype f1) = split_head "/" (mimetype f2) ∧ n1 = n2 ∧ r1 = r2 ∧
  extname (originalname f1) = extname (originalname f2).
Proof.
  intros H1 H2 E. apply (f_equal chars) in E. rewrite !chars_filename in E.
  assert (Hu : ∀ n, "_"%char ∉ chars (Number_toString n)).
  { intros n. apply no_char_in_digits; [done | apply Number_toString_digits]. }
  assert (Hrest : chars (Number_toString n1) ++ "_"%char ::
                    chars (Number_toString r1) ++ extname_chars (chars (originalname f1)) =
                  chars (Number_toString n2) ++ "_"%char ::
                    chars (Number_toString r2) ++ extname_chars (chars (originalname f2)) ∧
                  split_head "/" (mimetype f1) = split_head "/" (mimetype f2)).
  { destruct (allowed_type_tag _ H1) as [T1|T1], (allowed_type_tag _ H2) as [T2|T2];
      rewrite T1, T2 in *; simpl in E; [| discriminate E | discriminate E |];
      (split; [congruence | done]). }
  destruct Hrest as [Hrest Htag].
  apply app_sep_inj in Hrest as [En Hrest]; try apply Hu.
  apply digits_app_inj in Hrest as [Er Ee];
    try apply Number_toString_digits; try apply ends_digits_extname.
  split; [done|]. split; [by apply Number_toString_inj, chars_inj|].
  split; [by apply Number_toString_inj, chars_inj|].
  apply chars_inj. by rewrite !chars_extname.
Qed.

(** C7. Two accepted uploads get the same stored name exactly when they
    agree on the type tag, on the clock reading, on the random integer and
    on the extension; they get distinct names as soon as one of the four
    differs. *)
Theorem stored_names_collide_iff f1 f2 n1 r1 n2 r2 :
  mimetype f1 ∈ ALLOWED_FILE_TYPES → mimetype f2 ∈ ALLOWED_FILE_TYPES →
  (filename f1 n1 r1 = filename f2 n2 r2 ↔
   split_head "/" (mimetype f1) = split_head "/" (mimetype f2) ∧ n1 = n2 ∧ r1 = r2 ∧
   extname (originalname f1) = extname (originalname f2)).
Proof.
  intros H1 H2. split; [by apply filename_inj|].
  intros (Ht & -> & -> & He). unfold filename. by rewrite Ht, He.
Qed.

Lemma stored_names_collide_iff_witness :
  filename Samples.a_png 1730000000000 42 ≠ filename Samples.b_png 1730000000000 43.
Proof.
  intros E.
  apply (stored_names_collide_iff Samples.a_png Samples.b_png
           1730000000000 42 1730000000000 43) in E.
  - destruct E as (_ & _ & E & _). discriminate E.
  - apply includes_spec. reflexivity.
  - apply includes_spec. reflexivity.
Defined.

(** Two uploads handled at the same clock reading with the same random
    draw: both are answered with the same stored name, which is on disk
    when the second arrives, and the second takes the place of the
    first. *)
Lemma same_reading_same_name :
  stored_name (upload_single Samples.uploads (Some Samples.a_png) 1730000000000 42 None).2 =
    Some "image_1730000000000_42.png" ∧
  disk_entries (upload_single Samples.uploads (Some Samples.a_png) 1730000000000 42 None).1
    !! "image_1730000000000_42.png" = Some (regular_file 1730000000000 10) ∧
  stored_name (upload_single Samples.uploads (Some Samples.b_png) 1730000000000 42
    (upload_single Samples.uploads (Some Samples.a_png) 1730000000000 42 None).1).2 =
    Some "image_1730000000000_42.png" ∧
  filename Samples.a_png 1730000000000 42 = filename Samples.b_png 1730000000000 42.
Proof. repeat split; reflexivity. Qed.

(** C9. Whatever the original file name is, the stored name has no path
    separator in it, and joined to the storage root it names an entry
    directly inside the root. *)
Theorem stored_name_inside_root uploadDir file now rnd :
  (CHAR_FORWARD_SLASH ∉ chars (filename file now rnd)) ∧
  components (chars (join uploadDir (filename file now rnd))) =
    components (chars uploadDir) ++ [chars (filename file now rnd)].
Proof.
  split; [apply filename_no_slash|].
  unfold join. rewrite !chars_app.
  change (chars "/" ++ chars (filename file now rnd))
    with (CHAR_FORWARD_SLASH :: chars (filename file now rnd)).
  pose proof (filename_underscore file now rnd) as Hu.
  apply components_join.
  - apply filename_no_slash.
  - intros E. rewrite E in Hu. by apply elem_of_nil in Hu.
  - intros E. rewrite E in Hu. apply list_elem_of_singleton in Hu. discriminate Hu.
  - intros E. rewrite E in Hu.
    apply elem_of_cons in Hu as [Hu|Hu]; [discriminate Hu|].
    apply list_elem_of_singleton in Hu. discriminate Hu.
Qed.

Example hostile_name_stored :
  filename {| originalname := "../../etc/cron.d/job.sh"; mimetype := "image/png";
              stream_bytes := 10 |} 1730000000000 42 = "image_1730000000000_42.sh" ∧
  filename {| originalname := "../.."; mimetype := "image/png";
              stream_bytes := 10 |} 1730000000000 42 = "image_1730000000000_42".
Proof. split; reflexivity. Qed.

End StoredNames.

(** ** Retention *)

Section Retention.
Import Js Server.

Lemma sweep_readable now d :
  readdir_error d = None →
  sweep now (Some d) =
    (Some (with_entries d (sweep_files now (map_to_list (entries d)).*1 (entries d)).1),
     (sweep_files now (map_to_list (entries d)).*1 (entries d)).2).
Proof.
  intros H. unfold sweep, readdir. rewrite H.
  by destruct (sweep_files _ _ _).
Qed.

Lemma sweep_unreadable now fs err :
  readdir fs = inl err → sweep now fs = (fs, [LogReaddirError err]).
Proof. intros H. unfold sweep. by rewrite H. Qed.

(** What a pass leaves of a readable directory. *)
Lemma sweep_lookup now d name :
  readdir_error d = None →
  disk_entries (sweep now (Some d)).1 !! name =
    if removable now (entries d) name then None else entries d !! name.
Proof.
  intros H. rewrite sweep_readable by done. simpl.
  rewrite sweep_files_lookup.
  destruct (removable now (entries d) name) eqn:Er; [|by rewrite andb_false_r].
  rewrite bool_decide_eq_true_2; [done|].
  apply elem_of_listing. unfold removable in Er.
  by destruct (entries d !! name).
Qed.

(** C5. A pass deletes a stored file exactly when the clock reading minus
    the file's creation time is strictly greater than 24 hours
    (86,400,000 ms).  A file that is gone after the pass was older than
    that; and, the directory being listed and the file being one that can
    be examined and deleted, it is gone if it was older and is kept
    unchanged otherwise.  A file created 25 hours before the pass is
    deleted, one created 1 hour before is kept. *)
Theorem sweep_deletes_iff_older now d name ino :
  entries d !! name = Some ino →
  UPLOAD_CLEANUP_INTERVAL = 86400000 ∧
  (disk_entries (sweep now (Some d)).1 !! name = None →
     Z.of_N now - Z.of_N (birthtimeMs ino) > UPLOAD_CLEANUP_INTERVAL) ∧
  (readdir_error d = None → stat_error ino = None → unlink_error ino = None →
     (disk_entries (sweep now (Some d)).1 !! name = None ↔
        Z.of_N now - Z.of_N (birthtimeMs ino) > UPLOAD_CLEANUP_INTERVAL) ∧
     (disk_entries (sweep now (Some d)).1 !! name = Some ino ↔
        Z.of_N now - Z.of_N (birthtimeMs ino) ≤ UPLOAD_CLEANUP_INTERVAL) ∧
     (Z.of_N now - Z.of_N (birthtimeMs ino) = 25 * 60 * 60 * 1000 →
        disk_entries (sweep now (Some d)).1 !! name = None) ∧
     (Z.of_N now - Z.of_N (birthtimeMs ino) = 1 * 60 * 60 * 1000 →
        disk_entries (sweep now (Some d)).1 !! name = Some ino)).
Proof.
  intros He. split; [reflexivity|]. split.
  - destruct (readdir_error d) as [code|] eqn:Hd.
    + assert (Hr : readdir (Some d) = inl {| errno := code; epath := "uploads" |})
        by (unfold readdir; by rewrite Hd).
      rewrite (sweep_unreadable _ _ _ Hr). simpl. by rewrite He.
    + rewrite sweep_lookup by done. unfold removable, too_old. rewrite He.
      destruct (bool_decide _ && (_ >? _) && _) eqn:Hb; [|done]. intros _.
      apply andb_prop in Hb as [Hb _]. apply andb_prop in Hb as [_ Hb].
      by apply Z.gtb_gt.
  - intros Hd Hs Hu.
    assert (Hl : disk_entries (sweep now (Some d)).1 !! name =
                 if Z.of_N now - Z.of_N (birthtimeMs ino) >? UPLOAD_CLEANUP_INTERVAL
                 then None else Some ino).
    { rewrite sweep_lookup by done. unfold removable, too_old. rewrite He, Hs, Hu. simpl.
      by rewrite andb_true_r. }
    rewrite Hl. unfold UPLOAD_CLEANUP_INTERVAL.
    destruct (Z.gtb_spec (Z.of_N now - Z.of_N (birthtimeMs ino)) (24 * 60 * 60 * 1000));
      repeat split; intros; try done; try lia.
Qed.

Lemma sweep_deletes_iff_older_witness :
  disk_entries (sweep 1730090000000 (Some Samples.two_files)).1
    !! "image_1730000000000_42.png" = None ∧
  disk_entries (sweep 1730090000000 (Some Samples.two_files)).1
    !! "video_1730086400000_7.mp4" = Some (regular_file 1730086400000 4096).
Proof.
  split.
  - refine (proj1 (proj2 (proj2 (proj2 (proj2 (sweep_deletes_iff_older 1730090000000
      Samples.two_files "image_1730000000000_42.png" (regular_file 1730000000000 2048) _))
      _ _ _))) _); reflexivity.
  - refine (proj2 (proj2 (proj2 (proj2 (proj2 (sweep_deletes_iff_older 1730090000000
      Samples.two_files "video_1730086400000_7.mp4" (regular_file 1730086400000 4096) _))
      _ _ _))) _); reflexivity.
Defined.

Lemma failure_not_removable now es bad err :
  (stat es bad = inl err ∨
   ∃ stats, stat es bad = inr stats ∧ too_old now stats = true ∧ unlink es bad = inl err) →
  removable now es bad = false ∧
  (verdict now es bad = [LogStatError err] ∨ verdict now es bad = [LogUnlinkError err]).
Proof.
  unfold stat, unlink, removable, verdict, stat, unlink.
  destruct (es !! bad) as [ino|].
  - destruct (stat_error ino) as [c|]; simpl.
    + intros [[= <-] | (stats & [=] & _)]. auto.
    + intros [[=] | (stats & [= <-] & Ho & Hu)]. rewrite Ho.
      destruct (unlink_error ino) as [c|]; [|done].
      injection Hu as <-. auto.
  - intros [[= <-] | (stats & [=] & _)]. auto.
Qed.

(** C6. When reading the creation time of a listed entry fails, or
    deleting it fails, the entry is left as it is and the error is written
    to the console, and every other listed entry is still examined: one
    that can be examined and deleted is gone after the pass exactly when
    it is too old. *)
Theorem sweep_isolates_failures now files es bad err :
  bad ∈ files →
  (stat es bad = inl err ∨
   ∃ stats, stat es bad = inr stats ∧ too_old now stats = true ∧ unlink es bad = inl err) →
  (sweep_files now files es).1 !! bad = es !! bad ∧
  (LogStatError err ∈ (sweep_files now files es).2 ∨
   LogUnlinkError err ∈ (sweep_files now files es).2) ∧
  ∀ other ino, other ∈ files → es !! other = Some ino →
    stat_error ino = None → unlink_error ino = None →
    (sweep_files now files es).1 !! other = if too_old now ino then None else Some ino.
Proof.
  intros Hin Hfail. apply failure_not_removable in Hfail as [Hnr Hv].
  split; [|split].
  - by rewrite sweep_files_lookup, Hnr, andb_false_r.
  - destruct Hv as [Hv|Hv]; [left|right];
      by apply (sweep_files_acc_log_error now files es es [] bad).
  - intros other ino Ho He Hs Hu. rewrite sweep_files_lookup.
    rewrite bool_decide_eq_true_2 by done. unfold removable.
    rewrite He, Hs, Hu. simpl. rewrite andb_true_r.
    by destruct (too_old now ino).
Qed.

Lemma sweep_isolates_failures_witness :
  (sweep_files 1730090000000
     ["image_1720000000000_1.png"; "image_1730000000000_42.png"; "gone.png"]
     Samples.with_locked).1 !! "image_1730000000000_42.png" = None ∧
  LogUnlinkError {| errno := "EPERM"; epath := "image_1720000000000_1.png" |} ∈
    (sweep_files 1730090000000
       ["image_1720000000000_1.png"; "image_1730000000000_42.png"; "gone.png"]
       Samples.with_locked).2.
Proof.
  destruct (sweep_isolates_failures 1730090000000
    ["image_1720000000000_1.png"; "image_1730000000000_42.png"; "gone.png"]
    Samples.with_locked "image_1720000000000_1.png"
    {| errno := "EPERM"; epath := "image_1720000000000_1.png" |}) as (_ & Hlog & H).
  - apply list_elem_of_here.
  - right. exists Samples.locked_png. split; [reflexivity|]. split; reflexivity.
  - split.
    + apply (H "image_1730000000000_42.png" (regular_file 1730000000000 2048)).
      * apply list_elem_of_further, list_elem_of_here.
      * reflexivity.
      * reflexivity.
      * reflexivity.
    + destruct Hlog as [Hlog|Hlog]; [|exact Hlog].
      exfalso. vm_compute in Hlog.
      repeat (apply elem_of_cons in Hlog as [Hlog|Hlog]; [discriminate Hlog|]).
      by apply elem_of_nil in Hlog.
Defined.

(** C8. Two passes in a row, the second at a clock reading by which no
    file has become too old that was not too old at the first: the second
    pass leaves the directory as the first left it and reports no
    deletion. *)
Theorem sweep_twice now now' fs :
  (∀ name ino, disk_entries fs !! name = Some ino →
     too_old now' ino = true → too_old now ino = true) →
  (sweep now' (sweep now fs).1).1 = (sweep now fs).1 ∧
  ∀ f, LogDeleted f ∉ (sweep now' (sweep now fs).1).2.
Proof.
  intros Hage.
  destruct (readdir fs) as [err|files] eqn:Er.
  { rewrite (sweep_unreadable now fs err Er). simpl.
    rewrite (sweep_unreadable now' fs err Er). simpl. split; [done|].
    intros f [?|?%elem_of_nil]%elem_of_cons; done. }
  destruct fs as [d|]; [|done]. unfold readdir in Er.
  destruct (readdir_error d) eqn:Hd; [done|]. clear Er files.
  rewrite (sweep_readable now d Hd). cbn [fst].
  set (es1 := (sweep_files now (map_to_list (entries d)).*1 (entries d)).1).
  rewrite sweep_readable by done. cbn [fst snd entries with_entries].
  assert (Hidle : ∀ f, removable now' es1 f = false).
  { intros f. apply not_true_is_false. intros Hr.
    assert (Hl := sweep_files_lookup now (map_to_list (entries d)).*1 (entries d) f).
    fold es1 in Hl. unfold removable in Hr.
    destruct (es1 !! f) as [ino|] eqn:E1; [|done].
    destruct (removable now (entries d) f) eqn:Er0.
    - rewrite bool_decide_eq_true_2 in Hl; [done|].
      apply elem_of_listing. unfold removable in Er0. by destruct (entries d !! f).
    - rewrite andb_false_r in Hl. unfold removable in Er0. rewrite <-Hl in Er0.
      apply andb_prop in Hr as [Hr Hu]. apply andb_prop in Hr as [Hs Ho].
      rewrite Hs, Hu, (Hage f ino) in Er0; done. }
  destruct (sweep_files_acc_idle now' (map_to_list es1).*1 es1 [] Hidle) as [Hfst Hlog].
  unfold sweep_files. rewrite Hfst. split; [done|].
  intros f Hf%Hlog. by apply elem_of_nil in Hf.
Qed.

Lemma sweep_twice_witness :
  (sweep 1730090000000 (sweep 1730090000000 (Some Samples.two_files)).1).1 =
  (sweep 1730090000000 (Some Samples.two_files)).1.
Proof.
  apply (sweep_twice 1730090000000 1730090000000).
  intros name ino _ H. exact H.
Defined.

(** C10. When listing the storage root fails, the pass deletes nothing:
    the disk is as before and the only effect is the error written to the
    console.  The process keeps running, and the next firing of the timer
    runs a pass again. *)
Theorem listing_failure_skips_pass uploadDir port now fs err p :
  readdir fs = inl err → disk p = fs → exited p = false →
  sweep now fs = (fs, [LogReaddirError err]) ∧
  disk (step uploadDir port p (Tick now)) = fs ∧
  console (step uploadDir port p (Tick now)) = console p ++ [LogReaddirError err] ∧
  exited (step uploadDir port p (Tick now)) = false ∧
  ∀ later,
    disk (step uploadDir port (step uploadDir port p (Tick now)) (Tick later)) =
      (sweep later fs).1 ∧
    console (step uploadDir port (step uploadDir port p (Tick now)) (Tick later)) =
      (console p ++ [LogReaddirError err]) ++ (sweep later fs).2.
Proof.
  intros Hr Hd He.
  assert (Hs := sweep_unreadable now fs err Hr).
  split; [done|]. unfold step. rewrite He, Hd, Hs. simpl.
  repeat split; try done; by destruct (sweep later fs).
Qed.

Lemma listing_failure_skips_pass_witness :
  sweep 1730090000000 None =
    (None, [LogReaddirError {| errno := "ENOENT"; epath := "uploads" |}]).
Proof.
  apply (listing_failure_skips_pass Samples.uploads "3000" 1730090000000 None
    {| errno := "ENOENT"; epath := "uploads" |} Samples.fresh_process);
    reflexivity.
Defined.

(** A fresh server: the first firing finds no uploads directory, an upload
    then creates it, and the firing a day later removes the file. *)
Example timer_survives_missing_directory :
  let p := run Samples.uploads "3000" Samples.fresh_process
    [ Tick 1730000000000;
      Upload (Some Samples.photo_png) 1730000000500 42;
      Tick 1730086400000;
      Tick 1730172800000 ] in
  console p = [ LogReaddirError {| errno := "ENOENT"; epath := "uploads" |};
                LogDeleted "image_1730000000500_42.png" ] ∧
  disk_entries (disk p) = ∅ ∧ exited p = false.
Proof. vm_compute. repeat split. Qed.

End Retention.

(** ** What a request does to the disk and what it is answered *)

Section Answers.
Import Js Path Server.

Lemma disk_entries_mkdir fs : entries (mkdirSync fs) = disk_entries fs.
Proof. by destruct fs. Qed.

Lemma post_upload_disk uploadDir port part now rnd fs :
  (post_upload uploadDir port part now rnd fs).1 =
  (upload_single uploadDir part now rnd fs).1.
Proof.
  unfold post_upload. by destruct (upload_single _ _ _ _ _) as [fs' [f|e]].
Qed.

Lemma upload_single_stored uploadDir file now rnd fs :
  mimetype file ∈ ALLOWED_FILE_TYPES →
  limit_exceeded FILE_SIZE_LIMIT (stream_bytes file) = false →
  upload_single uploadDir (Some file) now rnd fs =
    (Some (write_file (filename file now rnd) now (stream_bytes file) (mkdirSync fs)),
     NextOk (Some {| rf_filename := filename file now rnd;
                     rf_originalname := originalname file;
                     rf_mimetype := mimetype file;
                     rf_size := stream_bytes file;
                     rf_path := join uploadDir (filename file now rnd) |})).
Proof.
  intros Ha Hl. unfold upload_single, destination.
  by rewrite (fileFilter_accepts _ Ha), Hl.
Qed.

Lemma upload_single_cut uploadDir file now rnd fs :
  mimetype file ∈ ALLOWED_FILE_TYPES →
  limit_exceeded FILE_SIZE_LIMIT (stream_bytes file) = true →
  upload_single uploadDir (Some file) now rnd fs =
    (Some (with_entries (mkdirSync fs)
             (delete (filename file now rnd) (entries (mkdirSync fs)))),
     NextErr (MulterError "LIMIT_FILE_SIZE" "File too large")).
Proof.
  intros Ha Hl. unfold upload_single, destination.
  rewrite (fileFilter_accepts _ Ha), Hl. unfold unlink. simpl.
  by rewrite lookup_insert_eq, delete_written.
Qed.

Lemma upload_single_refused uploadDir file now rnd fs :
  mimetype file ∉ ALLOWED_FILE_TYPES →
  upload_single uploadDir (Some file) now rnd fs =
    (fs, NextErr (Error "Invalid file type")).
Proof. intros H. unfold upload_single. by rewrite fileFilter_refuses. Qed.



(** X2. Whatever a request carries and however it is answered, every
    file under the storage root other than the one named for its part is
    left as it was. *)
Theorem upload_leaves_other_files uploadDir port part now rnd fs other :
  (∀ file, part = Some file → other ≠ filename file now rnd) →
  disk_entries (post_upload uploadDir port part now rnd fs).1 !! other =
  disk_entries fs !! other.
Proof.
  intros Hother. rewrite post_upload_disk.
  destruct part as [file|]; [|done].
  specialize (Hother file eq_refl).
  destruct (decide (mimetype file ∈ ALLOWED_FILE_TYPES)) as [Ha|Hn].
  - destruct (limit_exceeded FILE_SIZE_LIMIT (stream_bytes file)) eqn:Hl.
    + rewrite (upload_single_cut _ _ _ _ _ Ha Hl). simpl.
      by rewrite lookup_delete_ne, disk_entries_mkdir.
    + rewrite (upload_single_stored _ _ _ _ _ Ha Hl). simpl.
      by rewrite lookup_insert_ne, disk_entries_mkdir.
  - by rewrite (upload_single_refused _ _ _ _ _ Hn).
Qed.

Lemma upload_leaves_other_files_witness :
  disk_entries (post_upload Samples.uploads "3000" (Some Samples.photo_png)
                  1730090000000 42 (Some Samples.two_files)).1
    !! "video_1730086400000_7.mp4" = Some (regular_file 1730086400000 4096).
Proof.
  rewrite (upload_leaves_other_files Samples.uploads "3000" (Some Samples.photo_png)
             1730090000000 42 (Some Samples.two_files) "video_1730086400000_7.mp4").
  - reflexivity.
  - intros file [= <-]. vm_compute. discriminate.
Defined.



End Answers.

(** ** More on the cleanup pass *)

Section Cleanup.
Import Js Path Server.

Lemma sweep_files_subseteq now files es : (sweep_files now files es).1 ⊆ es.
Proof.
  apply map_subseteq_spec. intros k x. rewrite sweep_files_lookup.
  by destruct (_ && _).
Qed.

Lemma sweep_subseteq now fs : disk_entries (sweep now fs).1 ⊆ disk_entries fs.
Proof.
  destruct (readdir fs) as [err|files] eqn:Er.
  - by rewrite (sweep_unreadable now fs err Er).
  - destruct fs as [d|]; [|done]. unfold readdir in Er.
    destruct (readdir_error d) eqn:Hd; [done|].
    rewrite sweep_readable by done. apply sweep_files_subseteq.
Qed.

(** X4. A pass only removes files: what it leaves is part of what it
    found, unchanged, and it neither creates nor removes the directory. *)
Theorem sweep_only_removes now fs :
  disk_entries (sweep now fs).1 ⊆ disk_entries fs ∧
  ((sweep now fs).1 = None ↔ fs = None).
Proof.
  split; [apply sweep_subseteq|].
  destruct (readdir fs) as [err|files] eqn:Er.
  - by rewrite (sweep_unreadable now fs err Er).
  - unfold sweep. rewrite Er. destruct fs as [d|]; [|done].
    by destruct (sweep_files _ _ _).
Qed.

Lemma verdict_deleted now es x f :
  LogDeleted f ∈ verdict now es x ↔ x = f ∧ removable now es x = true.
Proof.
  split.
  - intros Hin. assert (Hv : verdict now es x = [LogDeleted x]).
    { revert Hin. unfold verdict. destruct (stat es x).
      - intros [E|?%elem_of_nil]%elem_of_cons; [discriminate E | done].
      - destruct (too_old now _); [|by intros ?%elem_of_nil].
        destruct (unlink es x); [|done].
        intros [E|?%elem_of_nil]%elem_of_cons; [discriminate E | done]. }
    rewrite Hv in Hin. apply list_elem_of_singleton in Hin.
    split; [congruence | by apply removable_verdict].
  - intros [<- Hr%removable_verdict]. rewrite Hr. by left.
Qed.

Lemma sweep_files_acc_deleted now files es log f :
  LogDeleted f ∈ (foldl (sweep_file now) (es, log) files).2 ↔
  LogDeleted f ∈ log ∨ (f ∈ files ∧ removable now es f = true).
Proof.
  revert es log. induction files as [|x files IH]; intros es log.
  - simpl. split; [by left|]. intros [?|[?%elem_of_nil _]]; done.
  - cbn [foldl]. rewrite sweep_file_eq, IH, elem_of_app, verdict_deleted, elem_of_cons.
    destruct (decide (x = f)) as [->|Hne].
    + destruct (removable now es f) eqn:Hr.
      * split; intros _; [right; split; [by left | done] | left; right; done].
      * intuition congruence.
    + assert (Hr : removable now (if removable now es x then delete x es else es) f =
                   removable now es f).
      { apply removable_ext. destruct (removable now es x); [|done].
        by rewrite lookup_delete_ne. }
      rewrite Hr. intuition congruence.
Qed.

(** X5. The console reports a deletion for exactly the files the pass
    removed. *)
Theorem deletions_logged_iff_removed now fs f :
  LogDeleted f ∈ (sweep now fs).2 ↔
  is_Some (disk_entries fs !! f) ∧ disk_entries (sweep now fs).1 !! f = None.
Proof.
  destruct (readdir fs) as [err|files] eqn:Er.
  - rewrite (sweep_unreadable now fs err Er). simpl. split.
    + intros [E|?%elem_of_nil]%elem_of_cons; [discriminate E | done].
    + intros [[x Hx] Hn]. congruence.
  - destruct fs as [d|]; [|done]. unfold readdir in Er.
    destruct (readdir_error d) eqn:Hd; [done|]. clear Er.
    rewrite sweep_lookup by done. rewrite sweep_readable by done. cbn [snd disk_entries].
    unfold sweep_files. rewrite sweep_files_acc_deleted, elem_of_listing.
    unfold removable. split.
    + intros [?%elem_of_nil|[Hs Hr]]; [done|]. split; [done|]. by rewrite Hr.
    + intros [[x Hx] Hn]. right. split; [by exists x|].
      rewrite Hx in *. by destruct (_ && _).
Qed.

Lemma deletions_logged_iff_removed_witness :
  LogDeleted "image_1730000000000_42.png" ∈
    (sweep 1730090000000 (Some Samples.two_files)).2.
Proof.
  apply (deletions_logged_iff_removed 1730090000000 (Some Samples.two_files)).
  split; [eexists|]; reflexivity.
Defined.

(** X6. A file that is not in the listing, such as one created after the
    listing was read, is left alone. *)
Theorem unlisted_file_untouched now files es name :
  name ∉ files → (sweep_files now files es).1 !! name = es !! name.
Proof.
  intros H. rewrite sweep_files_lookup. by rewrite bool_decide_eq_false_2.
Qed.

Lemma unlisted_file_untouched_witness :
  (sweep_files 1730090000000 ["image_1720000000000_1.png"]
     Samples.with_locked).1 !! "image_1730000000000_42.png" =
  Some (regular_file 1730000000000 2048).
Proof.
  rewrite (unlisted_file_untouched 1730090000000 ["image_1720000000000_1.png"]
             Samples.with_locked "image_1730000000000_42.png").
  - reflexivity.
  - intros H%list_elem_of_singleton. discriminate H.
Defined.

(** X7. The directory a pass leaves does not depend on the order of the
    listing, nor on names listed twice. *)
Theorem listing_order_irrelevant now files1 files2 es :
  (∀ x, x ∈ files1 ↔ x ∈ files2) →
  (sweep_files now files1 es).1 = (sweep_files now files2 es).1.
Proof.
  intros H. apply map_eq. intros k. rewrite !sweep_files_lookup.
  by rewrite (bool_decide_ext _ _ (H k)).
Qed.

Lemma listing_order_irrelevant_witness :
  (sweep_files 1730090000000
     ["image_1720000000000_1.png"; "image_1730000000000_42.png"] Samples.with_locked).1 =
  (sweep_files 1730090000000
     ["image_1730000000000_42.png"; "image_1720000000000_1.png";
      "image_1730000000000_42.png"] Samples.with_locked).1.
Proof.
  apply (listing_order_irrelevant 1730090000000).
  intros x. rewrite !elem_of_cons, elem_of_nil. tauto.
Defined.

Lemma removable_later now now' es f :
  (now ≤ now')%N → removable now es f = true → removable now' es f = true.
Proof.
  intros Hle. unfold removable, too_old. destruct (es !! f) as [ino|]; [|done].
  intros H. apply andb_prop in H as [H Hu]. apply andb_prop in H as [Hs Ho].
  rewrite Hs, Hu. apply Z.gtb_gt in Ho.
  replace (_ >? _) with true; [done|]. symmetry. apply Z.gtb_gt. lia.
Qed.

(** X8. A later pass removes at least what an earlier one would have
    removed: what is left at the later reading is part of what is left at
    the earlier one. *)
Theorem later_pass_removes_more now now' fs :
  (now ≤ now')%N →
  disk_entries (sweep now' fs).1 ⊆ disk_entries (sweep now fs).1.
Proof.
  intros Hle. destruct (readdir fs) as [err|files] eqn:Er.
  - by rewrite (sweep_unreadable now fs err Er), (sweep_unreadable now' fs err Er).
  - destruct fs as [d|]; [|done]. unfold readdir in Er.
    destruct (readdir_error d) eqn:Hd; [done|].
    apply map_subseteq_spec. intros k x. rewrite !sweep_lookup by done.
    destruct (removable now' (entries d) k) eqn:H'; [done|].
    destruct (removable now (entries d) k) eqn:H; [|done].
    apply (removable_later now now') in H; [congruence | done].
Qed.

Lemma later_pass_removes_more_witness :
  disk_entries (sweep 1730180000000 (Some Samples.two_files)).1 ⊆
  disk_entries (sweep 1730090000000 (Some Samples.two_files)).1.
Proof.
  apply (later_pass_removes_more 1730090000000 1730180000000). discriminate.
Defined.



End Cleanup.

(** ** What is ever found under the storage root *)

Section Lifecycle.
Import Js Path Server Invariants.

Lemma upload_single_keys uploadDir part now rnd fs k :
  is_Some (disk_entries (upload_single uploadDir part now rnd fs).1 !! k) →
  is_Some (disk_entries fs !! k) ∨
  ∃ file, part = Some file ∧ mimetype file ∈ ALLOWED_FILE_TYPES ∧
    k = filename file now rnd.
Proof.
  destruct part as [file|]; [|by left].
  destruct (decide (mimetype file ∈ ALLOWED_FILE_TYPES)) as [Ha|Hn].
  - destruct (decide (k = filename file now rnd)) as [->|Hne];
      [intros _; right; by exists file|].
    intros H. left. revert H.
    destruct (limit_exceeded FILE_SIZE_LIMIT (stream_bytes file)) eqn:Hl.
    + rewrite (upload_single_cut _ _ _ _ _ Ha Hl). simpl.
      by rewrite lookup_delete_ne, disk_entries_mkdir.
    + rewrite (upload_single_stored _ _ _ _ _ Ha Hl). simpl.
      by rewrite lookup_insert_ne, disk_entries_mkdir.
  - rewrite (upload_single_refused _ _ _ _ _ Hn). by left.
Qed.

Lemma step_only_uploads uploadDir port p ev :
  only_uploads (disk p) → only_uploads (disk (step uploadDir port p ev)).
Proof.
  intros Hinv. unfold step. destruct (exited p); [done|].
  destruct ev as [part now rnd|now|]; [| |done].
  - pose proof (post_upload_disk uploadDir port part now rnd (disk p)) as Hd.
    destruct (post_upload uploadDir port part now rnd (disk p)) as [fs res].
    simpl in *. subst fs. intros k Hk.
    apply upload_single_keys in Hk as [Hk|(file & _ & Ha & ->)]; [by apply Hinv|].
    by exists file, now, rnd.
  - pose proof (sweep_subseteq now (disk p)) as Hsub.
    destruct (sweep now (disk p)) as [fs log]. simpl in *.
    intros k [x Hk]. apply Hinv. exists x.
    by apply (lookup_weaken _ _ _ _ Hk Hsub).
Qed.

(** X10. Whatever requests, timer firings and signals the process sees,
    every file under the storage root bears a name composed by
    [storage.filename] for a part of an allowed type, and so a name free of
    path separators, once this is so at the start (as on a server started
    without an uploads directory). *)
Theorem only_uploads_on_disk uploadDir port p evs :
  only_uploads (disk p) →
  ∀ k, is_Some (disk_entries (disk (run uploadDir port p evs)) !! k) →
    named_by_upload k ∧ CHAR_FORWARD_SLASH ∉ chars k.
Proof.
  intros Hinv.
  assert (H : only_uploads (disk (run uploadDir port p evs))).
  { unfold run. revert p Hinv. induction evs as [|ev evs IH]; intros p Hinv; [done|].
    cbn [foldl]. by apply IH, step_only_uploads. }
  intros k Hk. destruct (H k Hk) as (file & now & rnd & Ha & ->).
  split; [by exists file, now, rnd | apply filename_no_slash].
Qed.

Lemma only_uploads_on_disk_witness :
  Invariants.named_by_upload "video_1730000000800_45.mp4" ∧
  CHAR_FORWARD_SLASH ∉ chars "video_1730000000800_45.mp4".
Proof.
  apply (only_uploads_on_disk Samples.uploads "3000" Samples.fresh_process Samples.a_day).
  - intros k [x Hx]. simpl in Hx. rewrite lookup_empty in Hx. discriminate Hx.
  - eexists. vm_compute. reflexivity.
Defined.

Lemma extname_chars_single_dot p :
  extname_chars p = [] ∨
  ∃ suf, extname_chars p = CHAR_DOT :: suf ∧ (CHAR_DOT ∉ suf) ∧
    (CHAR_FORWARD_SLASH ∉ suf).
Proof.
  rewrite extname_chars_spec.
  destruct (ext_of_component_shape (last_component p)) as [-> | (pre & suf & E & Hd & ->)];
    [by left|].
  right. exists suf. split; [done|]. split; [done|].
  pose proof (last_component_no_sep p) as H. rewrite E in H.
  apply Forall_app in H as [_ H]. apply Forall_cons in H as [_ H].
  rewrite Forall_forall in H. intros Hin. apply H in Hin. done.
Qed.

(** X11. The stored name of an accepted upload carries at most one dot:
    it is a stem without a dot followed by the extension, which is empty or
    a dot and characters that are neither dots nor path separators.  Of
    several extensions in the original name only the last is kept. *)
Theorem stored_name_single_extension file now rnd :
  mimetype file ∈ ALLOWED_FILE_TYPES →
  ∃ stem,
    chars (filename file now rnd) = stem ++ chars (extname (originalname file)) ∧
    (CHAR_DOT ∉ stem) ∧
    (chars (extname (originalname file)) = [] ∨
     ∃ suf, chars (extname (originalname file)) = CHAR_DOT :: suf ∧
       (CHAR_DOT ∉ suf) ∧ (CHAR_FORWARD_SLASH ∉ suf)).
Proof.
  intros Ha.
  exists (chars (split_head "/" (mimetype file)) ++ "_"%char ::
          chars (Number_toString now) ++ "_"%char :: chars (Number_toString rnd)).
  split; [|split].
  - rewrite chars_filename, chars_extname.
    repeat (rewrite <-app_assoc; cbn [app]). reflexivity.
  - assert (Hd : ∀ n, CHAR_DOT ∉ chars (Number_toString n)).
    { intros n. apply no_char_in_digits; [done | apply Number_toString_digits]. }
    repeat (rewrite elem_of_app || rewrite elem_of_cons).
    intros [H|[H|[H|[H|H]]]]; try done; try (by apply Hd in H).
    destruct (allowed_type_tag _ Ha) as [E|E]; rewrite E in H; simpl in H;
      repeat (apply elem_of_cons in H as [H|H]; [discriminate H|]);
      by apply elem_of_nil in H.
  - rewrite chars_extname. apply extname_chars_single_dot.
Qed.

Lemma stored_name_single_extension_witness :
  ∃ stem,
    chars (filename Samples.shell_php_png 1730000000500 42) =
      stem ++ chars (extname "shell.php.png") ∧ (CHAR_DOT ∉ stem).
Proof.
  destruct (stored_name_single_extension Samples.shell_php_png 1730000000500 42)
    as (stem & H1 & H2 & _).
  - apply includes_spec. reflexivity.
  - exists stem. split; [exact H1 | exact H2].
Defined.



End Lifecycle.
